(** * Resumable caption journal and checkpointing dispatcher

    A shallow embedding of [journal.py] (class [CaptionJournal]) and of the
    dispatch loop of [caption.py] (command [run]), with the properties of
    the design document stated and proved over it.

    Conventions of the embedding.
    - A Python [str] is represented by its UTF-8 encoding, a Rocq [string]
      (a list of bytes).  The journal file on disk is a [string] of bytes
      as well: writing text through a handle opened with [encoding="utf-8"]
      appends the representation unchanged, reading decodes strictly and
      raises [UnicodeDecodeError] on ill-formed input.
    - The in-memory [_records] dict is a [gmap string entry], the [_done]
      set a [gset string].
    - Python exceptions are values of [exn]; a call that may raise returns
      a [result].  Only subclasses of [Exception] are modelled. *)

From Stdlib Require Import ZArith Ascii String List Bool Lia Permutation Sorted.
From stdpp Require Import base option gmap strings list.

Local Open Scope string_scope.
Local Open Scope Z_scope.

#[local] Set Warnings "-clear-no-such-hyp".

(** The double quote as a one-character text. *)
Abbreviation QQ := (String "034"%char EmptyString).

(** ** Exceptions and results *)

Inductive exn : Set :=
| CorruptImageError
| ValidationError
| UnicodeDecodeError
| ValueError
| OtherError (name : string).

Inductive result (A : Type) : Type :=
| Ok (a : A)
| Raise (e : exn).
Arguments Ok {A} a.
Arguments Raise {A} e.

(** ** Text primitives *)

Module Text.

Definition code (c : ascii) : N := N_of_ascii c.

(** Line terminators of Python's universal-newline text mode. *)
Definition is_newline (c : ascii) : bool :=
  match c with
  | "010"%char | "013"%char => true
  | _ => false
  end.

(** Iterating a text file: the content is cut at ["\n"], ["\r"] and
    ["\r\n"]; a last line without terminator is produced too.  The
    terminator is left out of the line here, [strip] would remove it. *)
Fixpoint lines_from (cur : string) (s : string) : list string :=
  match s with
  | EmptyString =>
      match cur with EmptyString => [] | _ => [cur] end
  | String "013"%char (String "010"%char rest) => cur :: lines_from "" rest
  | String c rest =>
      if is_newline c then cur :: lines_from "" rest
      else lines_from (cur ++ String c "") rest
  end.

Definition file_lines (s : string) : list string := lines_from "" s.

(** [str.strip()]: the characters Python regards as white space, seen
    through their UTF-8 encodings. *)
Definition lstrip1 (s : string) : option string :=
  match s with
  | String c r =>
      let n := code c in
      if ((9 <=? n) && (n <=? 13) || (28 <=? n) && (n <=? 32))%N then Some r
      else
        match n, r with
        | 194%N, String d r' =>
            if ((code d =? 133) || (code d =? 160))%N then Some r' else None
        | 225%N, String d (String e r') =>
            if ((code d =? 154) && (code e =? 128))%N then Some r' else None
        | 226%N, String d (String e r') =>
            if ((code d =? 128) &&
                ((128 <=? code e) && (code e <=? 138) ||
                 (code e =? 168) || (code e =? 169) || (code e =? 175)))%N
            then Some r'
            else if ((code d =? 129) && (code e =? 159))%N then Some r'
            else None
        | 227%N, String d (String e r') =>
            if ((code d =? 128) && (code e =? 128))%N then Some r' else None
        | _, _ => None
        end
  | EmptyString => None
  end.

(** The same test from the right end, on the reversed text. *)
Definition rstrip1 (s : string) : option string :=
  match s with
  | String c r =>
      let n := code c in
      if ((9 <=? n) && (n <=? 13) || (28 <=? n) && (n <=? 32))%N then Some r
      else
        match r with
        | String d r1 =>
            if ((code d =? 194) && ((n =? 133) || (n =? 160)))%N then Some r1
            else
              match r1 with
              | String e r2 =>
                  if ((code e =? 225) && (code d =? 154) && (n =? 128))%N
                  then Some r2
                  else if ((code e =? 226) && (code d =? 128) &&
                           ((128 <=? n) && (n <=? 138) ||
                            (n =? 168) || (n =? 169) || (n =? 175)))%N
                  then Some r2
                  else if ((code e =? 226) && (code d =? 129) && (n =? 159))%N
                  then Some r2
                  else if ((code e =? 227) && (code d =? 128) && (n =? 128))%N
                  then Some r2
                  else None
              | EmptyString => None
              end
        | EmptyString => None
        end
  | EmptyString => None
  end.

Fixpoint strip_with (f : string -> option string) (fuel : nat) (s : string)
  : string :=
  match fuel with
  | O => s
  | S k => match f s with
           | Some r => strip_with f k r
           | None => s
           end
  end.

Definition lstrip (s : string) : string :=
  strip_with lstrip1 (String.length s) s.

Definition rstrip (s : string) : string :=
  String.rev (strip_with rstrip1 (String.length s) (String.rev s)).

Definition strip (s : string) : string := rstrip (lstrip s).

(** Python's [needle in hay] on strings. *)
Fixpoint contains (needle hay : string) : bool :=
  if String.prefix needle hay then true
  else match hay with
       | EmptyString => false
       | String _ rest => contains needle rest
       end.

(** [s.split(sep)] for a one-character separator. *)
Fixpoint split_from (sep : ascii) (cur : string) (s : string) : list string :=
  match s with
  | EmptyString => [cur]
  | String c rest =>
      if Ascii.eqb c sep then cur :: split_from sep "" rest
      else split_from sep (cur ++ String c "") rest
  end.

Definition split (sep : ascii) (s : string) : list string :=
  split_from sep "" s.

(** Every character of the text passes the test. *)
Fixpoint all_chars (p : ascii -> bool) (s : string) : bool :=
  match s with
  | EmptyString => true
  | String c rest => p c && all_chars p rest
  end.

End Text.

(** ** Strict UTF-8 decoding

    [open(path, encoding="utf-8")] decodes with [errors="strict"].  Under
    the representation chosen here decoding returns its input when the
    bytes are well formed (Unicode, table 3-7) and raises otherwise. *)

Module Utf8.

Inductive state : Set :=
| Start          (* at a character boundary *)
| Tail1          (* one continuation byte missing *)
| Tail2          (* two continuation bytes missing *)
| Tail3          (* three continuation bytes missing *)
| AfterE0        (* next byte in A0..BF, then one more *)
| AfterED        (* next byte in 80..9F, then one more *)
| AfterF0        (* next byte in 90..BF, then two more *)
| AfterF4.       (* next byte in 80..8F, then two more *)

Definition between (lo hi n : N) : bool := ((lo <=? n) && (n <=? hi))%N.

Definition is_ascii (c : ascii) : bool := (Text.code c <? 128)%N.

Definition step (q : state) (c : ascii) : option state :=
  let n := Text.code c in
  match q with
  | Start =>
      if (n <? 128)%N then Some Start
      else if between 194 223 n then Some Tail1
      else if (n =? 224)%N then Some AfterE0
      else if between 225 236 n then Some Tail2
      else if (n =? 237)%N then Some AfterED
      else if between 238 239 n then Some Tail2
      else if (n =? 240)%N then Some AfterF0
      else if between 241 243 n then Some Tail3
      else if (n =? 244)%N then Some AfterF4
      else None
  | Tail1 => if between 128 191 n then Some Start else None
  | Tail2 => if between 128 191 n then Some Tail1 else None
  | Tail3 => if between 128 191 n then Some Tail2 else None
  | AfterE0 => if between 160 191 n then Some Tail1 else None
  | AfterED => if between 128 159 n then Some Tail1 else None
  | AfterF0 => if between 144 191 n then Some Tail2 else None
  | AfterF4 => if between 128 143 n then Some Tail2 else None
  end.

Fixpoint run (q : state) (s : string) : option state :=
  match s with
  | EmptyString => Some q
  | String c rest =>
      match step q c with
      | Some q' => run q' rest
      | None => None
      end
  end.

Definition at_start (o : option state) : bool :=
  match o with Some Start => true | _ => false end.

Definition valid (s : string) : bool := at_start (run Start s).

Definition decode (bytes : string) : result string :=
  if valid bytes then Ok bytes else Raise UnicodeDecodeError.

(** UTF-8 encoding of a code point, for the [\uXXXX] escapes of JSON. *)
Definition byte (n : N) : ascii := ascii_of_N n.

Definition encode (cp : N) : string :=
  if (cp <? 128)%N then String (byte cp) ""
  else if (cp <? 2048)%N then
    String (byte (192 + cp / 64)) (String (byte (128 + cp mod 64)) "")
  else if (cp <? 65536)%N then
    String (byte (224 + cp / 4096))
      (String (byte (128 + (cp / 64) mod 64))
         (String (byte (128 + cp mod 64)) ""))
  else
    String (byte (240 + cp / 262144))
      (String (byte (128 + (cp / 4096) mod 64))
         (String (byte (128 + (cp / 64) mod 64))
            (String (byte (128 + cp mod 64)) ""))).

End Utf8.

(** ** JSON values and the reader behind [model_validate_json]

    The reader follows the JSON grammar (RFC 8259) on the bytes of the
    line: white space, the three literals, numbers, strings with their
    escapes (a [\uXXXX] escape is turned into UTF-8, surrogate pairs
    included), arrays and objects.  Numbers are kept as lexemes, the
    schema of the journal has no numeric field.  The literals [NaN] and
    [Infinity], which pydantic's reader admits beside the grammar, are not
    read. *)

Module Json.

#[warnings="-register-all"]
Inductive value : Type :=
| JNull
| JBool (b : bool)
| JNum (lexeme : string)
| JStr (s : string)
| JArr (items : list value)
| JObj (members : list (string * value)).

Definition is_ws (c : ascii) : bool :=
  match c with
  | " "%char | "009"%char | "010"%char | "013"%char => true
  | _ => false
  end.

Fixpoint skip_ws (s : string) : string :=
  match s with
  | String c rest => if is_ws c then skip_ws rest else s
  | EmptyString => s
  end.

Definition hex_digit (c : ascii) : option N :=
  let n := Text.code c in
  if Utf8.between 48 57 n then Some (n - 48)%N
  else if Utf8.between 97 102 n then Some (n - 87)%N
  else if Utf8.between 65 70 n then Some (n - 55)%N
  else None.

Definition hex4 (a b c d : ascii) : option N :=
  match hex_digit a, hex_digit b, hex_digit c, hex_digit d with
  | Some x, Some y, Some z, Some w => Some (((x * 16 + y) * 16 + z) * 16 + w)%N
  | _, _, _, _ => None
  end.

Definition is_control (c : ascii) : bool := (Text.code c <? 32)%N.

Definition printable (c : ascii) : bool := negb (is_control c).

(** The characters of a string literal after its opening quote, up to
    and including the closing quote; returns the decoded text and the
    rest of the input. *)
Fixpoint read_chars (s : string) : option (string * string) :=
  let cons (pre : string) (r : option (string * string)) :=
    match r with
    | Some (v, rest) => Some (pre ++ v, rest)
    | None => None
    end in
  match s with
  | EmptyString => None
  | String "034"%char rest => Some ("", rest)
  | String "\"%char (String e rest) =>
      match e with
      | "034"%char => cons (String "034"%char "") (read_chars rest)
      | "\"%char => cons (String "\"%char "") (read_chars rest)
      | "/"%char => cons (String "/"%char "") (read_chars rest)
      | "b"%char => cons (String "008"%char "") (read_chars rest)
      | "f"%char => cons (String "012"%char "") (read_chars rest)
      | "n"%char => cons (String "010"%char "") (read_chars rest)
      | "r"%char => cons (String "013"%char "") (read_chars rest)
      | "t"%char => cons (String "009"%char "") (read_chars rest)
      | "u"%char =>
          match rest with
          | String h1 (String h2 (String h3 (String h4 rest1))) =>
              match hex4 h1 h2 h3 h4 with
              | None => None
              | Some hi =>
                  if Utf8.between 55296 56319 hi then
                    (* a high surrogate needs its low partner *)
                    match rest1 with
                    | String "\"%char (String "u"%char
                        (String l1 (String l2 (String l3 (String l4 rest2))))) =>
                        match hex4 l1 l2 l3 l4 with
                        | Some lo =>
                            if Utf8.between 56320 57343 lo then
                              cons (Utf8.encode
                                      (65536 + (hi - 55296) * 1024 + (lo - 56320))%N)
                                   (read_chars rest2)
                            else None
                        | None => None
                        end
                    | _ => None
                    end
                  else if Utf8.between 56320 57343 hi then None
                  else cons (Utf8.encode hi) (read_chars rest1)
              end
          | _ => None
          end
      | _ => None
      end
  | String "\"%char EmptyString => None
  | String c rest =>
      if is_control c then None
      else cons (String c "") (read_chars rest)
  end.

Definition is_digit (c : ascii) : bool := Utf8.between 48 57 (Text.code c).

Fixpoint take_digits (s : string) : string * string :=
  match s with
  | String c rest =>
      if is_digit c then
        let '(d, r) := take_digits rest in (String c d, r)
      else ("", s)
  | EmptyString => ("", s)
  end.

(** A number: optional minus sign, an integer part without leading
    zero, an optional fraction, an optional exponent.  The lexeme is
    kept as it stands. *)
Definition read_number (s : string) : option (string * string) :=
  let '(sign, s1) :=
    match s with
    | String "-"%char r => ("-", r)
    | _ => ("", s)
    end in
  let int_part :=
    match s1 with
    | String "0"%char r => Some ("0", r)
    | String c _ =>
        if is_digit c then Some (take_digits s1) else None
    | EmptyString => None
    end in
  match int_part with
  | None => None
  | Some (ip, s2) =>
      let frac :=
        match s2 with
        | String "."%char r =>
            match take_digits r with
            | (EmptyString, _) => None
            | (d, r') => Some ("." ++ d, r')
            end
        | _ => Some ("", s2)
        end in
      match frac with
      | None => None
      | Some (fp, s3) =>
          let expo :=
            match s3 with
            | String e r =>
                if (Ascii.eqb e "e" || Ascii.eqb e "E")%bool then
                  let '(sg, r1) :=
                    match r with
                    | String "+"%char r0 => ("+", r0)
                    | String "-"%char r0 => ("-", r0)
                    | _ => ("", r)
                    end in
                  match take_digits r1 with
                  | (EmptyString, _) => None
                  | (d, r') => Some (String e "" ++ sg ++ d, r')
                  end
                else Some ("", s3)
            | EmptyString => Some ("", s3)
            end in
          match expo with
          | None => None
          | Some (ep, s4) => Some (sign ++ ip ++ fp ++ ep, s4)
          end
      end
  end.

(** The input must begin with [lit]; what follows it is returned. *)
Fixpoint expect (lit : string) (s : string) : option string :=
  match lit with
  | EmptyString => Some s
  | String c lit' =>
      match s with
      | String d s' => if Ascii.eqb c d then expect lit' s' else None
      | EmptyString => None
      end
  end.

(** Values, array elements and object members; [fuel] bounds the nesting
    depth plus the number of elements read. *)
Fixpoint read_value (fuel : nat) (s : string) : option (value * string) :=
  match fuel with
  | O => None
  | S k =>
      match skip_ws s with
      | String "n"%char _ =>
          match expect "null" (skip_ws s) with
          | Some r => Some (JNull, r) | None => None end
      | String "t"%char _ =>
          match expect "true" (skip_ws s) with
          | Some r => Some (JBool true, r) | None => None end
      | String "f"%char _ =>
          match expect "false" (skip_ws s) with
          | Some r => Some (JBool false, r) | None => None end
      | String "034"%char r =>
          match read_chars r with
          | Some (v, r') => Some (JStr v, r') | None => None end
      | String "["%char r =>
          match skip_ws r with
          | String "]"%char r' => Some (JArr [], r')
          | _ =>
              match read_items k r with
              | Some (vs, r') => Some (JArr vs, r') | None => None end
          end
      | String "{"%char r =>
          match skip_ws r with
          | String "}"%char r' => Some (JObj [], r')
          | _ =>
              match read_members k r with
              | Some (ms, r') => Some (JObj ms, r') | None => None end
          end
      | _ =>
          match read_number (skip_ws s) with
          | Some (n, r) => Some (JNum n, r) | None => None end
      end
  end
with read_items (fuel : nat) (s : string) : option (list value * string) :=
  match fuel with
  | O => None
  | S k =>
      match read_value k s with
      | None => None
      | Some (v, r) =>
          match skip_ws r with
          | String ","%char r' =>
              match read_items k r' with
              | Some (vs, r'') => Some (v :: vs, r'') | None => None end
          | String "]"%char r' => Some ([v], r')
          | _ => None
          end
      end
  end
with read_members (fuel : nat) (s : string)
  : option (list (string * value) * string) :=
  match fuel with
  | O => None
  | S k =>
      match skip_ws s with
      | String "034"%char r =>
          match read_chars r with
          | None => None
          | Some (key, r1) =>
              match skip_ws r1 with
              | String ":"%char r2 =>
                  match read_value k r2 with
                  | None => None
                  | Some (v, r3) =>
                      match skip_ws r3 with
                      | String ","%char r4 =>
                          match read_members k r4 with
                          | Some (ms, r5) => Some ((key, v) :: ms, r5)
                          | None => None
                          end
                      | String "}"%char r4 => Some ([(key, v)], r4)
                      | _ => None
                      end
                  end
              | _ => None
              end
          end
      | _ => None
      end
  end.

(** A whole document: one value, nothing but white space after it. *)
Definition parse (s : string) : option value :=
  match read_value (S (String.length s)) s with
  | Some (v, r) =>
      match skip_ws r with
      | EmptyString => Some v
      | _ => None
      end
  | None => None
  end.

(** Member lookup; on a repeated name the last member is taken, as
    [json.loads] does. *)
Fixpoint get (name : string) (ms : list (string * value)) : option value :=
  match ms with
  | [] => None
  | (k, v) :: rest =>
      match get name rest with
      | Some w => Some w
      | None => if String.eqb k name then Some v else None
      end
  end.

(** Escaping of a string literal by the serializer: quote, backslash and
    the control characters; everything else is copied. *)
Definition hex_char (n : N) : ascii :=
  if (n <? 10)%N then ascii_of_N (48 + n) else ascii_of_N (87 + n).

Definition escape_char (c : ascii) : string :=
  match c with
  | "034"%char => String "\"%char QQ
  | "\"%char => "\\"
  | "008"%char => "\b"
  | "012"%char => "\f"
  | "010"%char => "\n"
  | "013"%char => "\r"
  | "009"%char => "\t"
  | _ =>
      if is_control c then
        "\u00" ++ String (hex_char (Text.code c / 16))
                    (String (hex_char (Text.code c mod 16)) "")
      else String c ""
  end.

Fixpoint escape (s : string) : string :=
  match s with
  | EmptyString => ""
  | String c rest => escape_char c ++ escape rest
  end.

Definition quote (s : string) : string := QQ ++ escape s ++ QQ.

End Json.

(** ** journal.py *)

(** The closed set of the [Literal] type of [CaptionRecord.status]. *)
Definition STATUSES : list string :=
  ["success"; "error_corrupt"; "error_api"; "error_model"].

Definition status_ok (s : string) : bool :=
  bool_decide (s ∈ STATUSES).

(** [class CaptionRecord(BaseModel)] *)
Record CaptionRecord : Set := {
  rel_path : string;
  caption : option string;
  status : string
}.

(** [CaptionRecord(rel_path=..., caption=..., status=...)]: the two string
    fields accept every [str]; [status] must be one of the literals. *)
Definition CaptionRecord_init (rp : string) (cap : option string) (st : string)
  : result CaptionRecord :=
  if status_ok st
  then Ok {| rel_path := rp; caption := cap; status := st |}
  else Raise ValidationError.

(** [record.model_dump_json()]: compact, fields in declaration order. *)
Definition model_dump_json (r : CaptionRecord) : string :=
  ("{" ++ QQ ++ "rel_path" ++ QQ ++ ":") ++ Json.quote (rel_path r) ++
  ("," ++ QQ ++ "caption" ++ QQ ++ ":") ++
  match caption r with
  | Some c => Json.quote c
  | None => "null"
  end ++
  ("," ++ QQ ++ "status" ++ QQ ++ ":") ++ Json.quote (status r) ++ "}".

(** [CaptionRecord.model_validate_json(line)]: the text must be a JSON
    object; [rel_path] and [status] must be strings, [caption] a string or
    null, all three present; members with other names are ignored. *)
Definition model_validate_json (line : string) : result CaptionRecord :=
  match Json.parse line with
  | Some (Json.JObj ms) =>
      match Json.get "rel_path" ms, Json.get "caption" ms,
            Json.get "status" ms with
      | Some (Json.JStr rp), Some (Json.JStr c), Some (Json.JStr st) =>
          CaptionRecord_init rp (Some c) st
      | Some (Json.JStr rp), Some Json.JNull, Some (Json.JStr st) =>
          CaptionRecord_init rp None st
      | _, _, _ => Raise ValidationError
      end
  | _ => Raise ValidationError
  end.

(** The value stored under a key of [_records]:
    [{"caption": ..., "status": ...}]. *)
Record entry : Set := {
  entry_caption : option string;
  entry_status : string
}.

#[global] Instance entry_eq_dec : EqDecision entry.
Proof. solve_decision. Defined.

(** [collections.Counter(iterable)]: every element is counted under its
    own key, a key appears with its first element. *)
Definition Counter (l : list string) : gmap string nat :=
  fold_left (λ counts s, <[s := S (default O (counts !! s))]> counts) l ∅.

(** [sum(counts.values())] *)
Definition sum_values (counts : gmap string nat) : Z :=
  map_fold (λ _ n total, total + Z.of_nat n) 0 counts.

(** [class CaptionJournal]; [_file] records whether the append handle is
    open.  The file at [self.path] lives in the [world]. *)
Record CaptionJournal : Type := {
  _records : gmap string entry;
  _done : gset string;
  _file : bool
}.

(** Messages handed to the loggers. *)
Inductive log_msg : Set :=
| LogDiscarded (n : nat)                 (* "Discarded %d malformed line(s)" *)
| LogItemWarning (st rp : string)        (* "%s: %s — %s" of process_one *)
| LogNothingToDo                         (* "Nothing to do." *)
| LogBatchDone (processed remaining : Z) (* "Batch of %d done. %d remaining." *)
| LogDone (processed : Z).               (* "Done. Processed %d images." *)

(** The journal file ([None]: the path does not exist) and the log. *)
Record world : Type := {
  disk : option string;
  logged : list log_msg
}.

Definition set_disk (d : option string) (w : world) : world :=
  {| disk := d; logged := logged w |}.

Definition emit (m : log_msg) (w : world) : world :=
  {| disk := disk w; logged := logged w ++ [m] |}.

Module Journal.

(** [CaptionJournal(path)] *)
Definition init : CaptionJournal :=
  {| _records := ∅; _done := ∅; _file := false |}.

(** The body of the [for line in f] loop: the accumulator is the
    [_records] dict and the [discarded] counter.  Only the two exception
    classes of the [except] clause are absorbed. *)
Definition load_line (acc : result (gmap string entry * nat)) (line : string)
  : result (gmap string entry * nat) :=
  match acc with
  | Raise e => Raise e
  | Ok (recs, discarded) =>
      let line := Text.strip line in
      if String.eqb line "" then Ok (recs, discarded)
      else
        match model_validate_json line with
        | Raise ValidationError => Ok (recs, S discarded)
        | Raise e => Raise e
        | Ok record =>
            Ok (<[rel_path record :=
                    {| entry_caption := caption record;
                       entry_status := status record |}]> recs,
                discarded)
        end
  end.

Definition replay (lines : list string) : result (gmap string entry * nat) :=
  fold_left load_line lines (Ok (∅, O)).

(** The loop that fills [_done]. *)
Definition done_of (retry_statuses : gset string) (recs : gmap string entry)
  : gset string :=
  dom (filter (λ kv, entry_status kv.2 ∉ retry_statuses) recs).

(** [load(retry_statuses)].  Returns the dict (which is [self._records]
    itself), the journal and the world.  When reading raises, what the
    aborted loop had stored so far depends on the reader's buffering;
    the model leaves the two containers cleared. *)
Definition load (retry_statuses : gset string) (j : CaptionJournal) (w : world)
  : result (gmap string entry) * CaptionJournal * world :=
  let cleared := {| _records := ∅; _done := ∅; _file := _file j |} in
  match disk w with
  | None => (Ok ∅, cleared, w)
  | Some bytes =>
      match Utf8.decode bytes with
      | Raise e => (Raise e, cleared, w)
      | Ok text =>
          match replay (Text.file_lines text) with
          | Raise e => (Raise e, cleared, w)
          | Ok (recs, discarded) =>
              let w' := if Nat.eqb discarded 0 then w
                        else emit (LogDiscarded discarded) w in
              (Ok recs,
               {| _records := recs;
                  _done := done_of retry_statuses recs;
                  _file := _file j |},
               w')
          end
      end
  end.

Definition is_done (j : CaptionJournal) (rp : string) : bool :=
  bool_decide (rp ∈ _done j).

(** [open(path, "a")] creates the file when it is missing; every
    [write] is followed by [flush] and [fsync], so the bytes are on disk
    when the call returns. *)
Definition append_to (d : option string) (line : string) : option string :=
  match d with
  | None => Some line
  | Some old => Some (old ++ line)
  end.

Definition write (rp : string) (cap : option string) (st : string)
           (j : CaptionJournal) (w : world)
  : result unit * CaptionJournal * world :=
  match CaptionRecord_init rp cap st with
  | Raise e => (Raise e, j, w)
  | Ok record =>
      let line := model_dump_json record ++ String "010"%char "" in
      (Ok tt,
       {| _records := _records j;
          _done := {[rp]} ∪ _done j;
          _file := true |},
       set_disk (append_to (disk w) line) w)
  end.

Definition close (j : CaptionJournal) : CaptionJournal :=
  {| _records := _records j; _done := _done j; _file := false |}.

(** [summary()]: the three numbers of the message, [total], [success]
    and [errors].  The order in which [_records.values()] yields the
    entries has no influence on a [Counter]; the entries are taken in
    the order of [map_to_list]. *)
Definition summary (j : CaptionJournal) : Z * Z * Z :=
  let counts :=
    Counter (map (λ kv, entry_status kv.2) (map_to_list (_records j))) in
  let total := sum_values counts in
  let success := Z.of_nat (default O (counts !! "success")) in
  let errors := total - success in
  (total, success, errors).

End Journal.

(** ** backends/__init__.py *)

Definition BACKEND_NAMES : list string :=
  ["mock"; "local"; "openai"; "xai"; "anthropic"; "gemini"].

(** [load_backend(name, model, settings)]: the chain of [if name == ...]
    tests; an unknown name raises [ValueError].  The backend object is
    represented by its name. *)
Definition load_backend (name : string) : result string :=
  if bool_decide (name ∈ BACKEND_NAMES) then Ok name else Raise ValueError.

(** ** caption.py *)

(** A work item: [(rel_path, full_path)]. *)
Definition item : Set := (string * string)%type.

(** Options of the [run] command. *)
Record options : Set := {
  backend : string;
  max_workers : Z;
  limit : Z;
  restart_every : Z;
  retry_status : option string;
  force : bool;
  dry_run : bool
}.

(** What the run finds around it: whether [photos_dir] is a directory, the
    list [_collect_photos] returns, the effect of [load_image(full_path)]
    followed by [be.caption(image)] on each file, and the order in which
    the futures of a submitted batch complete. *)
Record env : Type := {
  photos_dir_is_dir : bool;
  all_photos : list item;
  caption_of : string -> result string;
  completion_order : list item -> list item
}.

(** How a call of [run] ends: [raise typer.Exit(code)], a normal return,
    or an exception nobody catches. *)
Inductive outcome : Set :=
| Exit (code : Z)
| Returned
| Crashed (e : exn).

(** The status the process reports to its parent. *)
Definition exit_code (o : outcome) : Z :=
  match o with
  | Exit code => code
  | Returned => 0
  | Crashed _ => 1
  end.

Module Caption.

Definition SUBMIT_BATCH : nat := 500.

(** [_batched(iterable, n)]: [islice] chunks until one comes out empty. *)
Fixpoint batched_from {A : Type} (fuel : nat) (l : list A) (n : nat)
  : list (list A) :=
  match fuel with
  | O => []
  | S k =>
      match take n l with
      | [] => []
      | chunk => chunk :: batched_from k (drop n l) n
      end
  end.

Definition _batched {A : Type} (l : list A) (n : nat) : list (list A) :=
  batched_from (length l) l n.

Section Run.

Variable backend_name : string.
Variable caption_of : string -> result string.
Variable restart_every : Z.

(** The status of the last [except] clause. *)
Definition fallback_status : string :=
  if Text.contains "api" backend_name then "error_api" else "error_model".

(** The [try] block of [process_one]. *)
Definition try_caption (it : item) (j : CaptionJournal) (w : world)
  : result unit * CaptionJournal * world :=
  match caption_of it.2 with
  | Raise e => (Raise e, j, w)
  | Ok text => Journal.write it.1 (Some text) "success" j w
  end.

(** A handler: record the failure, then warn. *)
Definition record_failure (st : string) (it : item)
           (j : CaptionJournal) (w : world)
  : result unit * CaptionJournal * world :=
  match Journal.write it.1 None st j w with
  | (Ok tt, j', w') => (Ok tt, j', emit (LogItemWarning st it.1) w')
  | r => r
  end.

Definition process_one (it : item) (j : CaptionJournal) (w : world)
  : result unit * CaptionJournal * world :=
  match try_caption it j w with
  | (Ok tt, j', w') => (Ok tt, j', w')
  | (Raise CorruptImageError, j', w') =>
      record_failure "error_corrupt" it j' w'
  | (Raise _, j', w') =>
      record_failure fallback_status it j' w'
  end.

(** The test that ends a loop at the checkpoint. *)
Definition checkpoint_reached (processed : Z) : bool :=
  (0 <? restart_every) && (restart_every <=? processed).

(** [max_workers <= 1]: the items one after the other. *)
Fixpoint sequential (pending : list item) (processed : Z)
         (j : CaptionJournal) (w : world)
  : result Z * CaptionJournal * world :=
  match pending with
  | [] => (Ok processed, j, w)
  | it :: rest =>
      match process_one it j w with
      | (Raise e, j', w') => (Raise e, j', w')
      | (Ok tt, j', w') =>
          let processed := processed + 1 in
          if checkpoint_reached processed then (Ok processed, j', w')
          else sequential rest processed j' w'
      end
  end.

(** What the workers of one pool do to the journal: every submitted
    call runs to its end, because leaving the [with] block waits for
    all of them; [items] is the batch in completion order.  A call
    that raises keeps its exception for [future.result()]. *)
Fixpoint run_all (items : list item) (j : CaptionJournal) (w : world)
  : option exn * CaptionJournal * world :=
  match items with
  | [] => (None, j, w)
  | it :: rest =>
      match process_one it j w with
      | (Ok tt, j', w') => run_all rest j' w'
      | (Raise e, j', w') =>
          let '(_, j'', w'') := run_all rest j' w' in (Some e, j'', w'')
      end
  end.

(** The [for future in as_completed(futures)] loop over [n] futures:
    the new counter and the [done] flag. *)
Fixpoint count_completed (n : nat) (processed : Z) : Z * bool :=
  match n with
  | O => (processed, false)
  | S k =>
      let processed := processed + 1 in
      if checkpoint_reached processed then (processed, true)
      else count_completed k processed
  end.

Variable completion_order : list item -> list item.

(** [max_workers > 1]: batch after batch, each in a pool of its own. *)
Fixpoint pooled (batches : list (list item)) (done : bool) (processed : Z)
         (j : CaptionJournal) (w : world)
  : result Z * CaptionJournal * world :=
  match batches with
  | [] => (Ok processed, j, w)
  | batch :: rest =>
      if done then (Ok processed, j, w)
      else
        match run_all (completion_order batch) j w with
        | (Some e, j', w') => (Raise e, j', w')
        | (None, j', w') =>
            let '(processed', done') :=
              count_completed (length batch) processed in
            pooled rest done' processed' j' w'
        end
  end.

End Run.

(** [set(retry_status.split(","))], or the empty set when the option is
    absent or empty. *)
Definition retry_set (o : option string) : gset string :=
  match o with
  | None => ∅
  | Some s =>
      if String.eqb s "" then ∅ else list_to_set (Text.split "," s)
  end.

(** The [run] command, from the directory test to the exit. *)
Definition run (o : options) (e : env) (w : world) : outcome * world :=
  if negb (photos_dir_is_dir e) then (Exit 1, w)
  else
    let actual_backend_name := if dry_run o then "mock" else backend o in
    match load_backend actual_backend_name with
    | Raise x => (Crashed x, w)
    | Ok _ =>
        let workers :=
          if String.eqb (backend o) "local" && (1 <? max_workers o)
          then 1 else max_workers o in
        let loaded :=
          if force o then (Ok ∅, Journal.init, w)
          else Journal.load (retry_set (retry_status o)) Journal.init w in
        match loaded with
        | (Raise x, _, w1) => (Crashed x, w1)
        | (Ok _, j, w1) =>
            let pending :=
              filter (λ it : item, Journal.is_done j it.1 = false)
                     (all_photos e) in
            let pending :=
              if 0 <? limit o then take (Z.to_nat (limit o)) pending
              else pending in
            match pending with
            | [] => (Exit 0, emit LogNothingToDo w1)
            | _ =>
                let looped :=
                  if workers <=? 1 then
                    sequential (backend o) (caption_of e) (restart_every o)
                               pending 0 j w1
                  else
                    pooled (backend o) (caption_of e) (restart_every o)
                           (completion_order e)
                           (_batched pending SUBMIT_BATCH) false 0 j w1 in
                match looped with
                | (Raise x, _, w2) => (Crashed x, w2)
                | (Ok processed, _, w2) =>
                    let remaining := Z.of_nat (length pending) - processed in
                    if (0 <? restart_every o) && (0 <? remaining)
                    then (Exit 2, emit (LogBatchDone processed remaining) w2)
                    else (Returned, emit (LogDone processed) w2)
                end
            end
        end
    end.

(** *** The commands [estimate] and [stats] *)

(** Lines written with [typer.echo], by their content. *)
Inductive echo_msg : Set :=
| EchoRemaining (remaining total already_done : Z)
    (* "Photos remaining:  %d / %d (%d already done)" *)
| EchoBackend (backend model : string)   (* "Backend:  %s / %s" *)
| EchoCost                               (* "Estimated cost:  ..." *)
| EchoTime                               (* "Estimated time:  ..." *)
| EchoNoRecords                          (* "No records found." *)
| EchoTotalRecords (total : Z)           (* "Total records: %d" *)
| EchoStatusCount (status : string) (count : Z).   (* "  %s: %d" *)

(** [sum(1 for rp, _ in all_photos if journal.is_done(rp))] *)
Definition count_done (j : CaptionJournal) (photos : list item) : Z :=
  fold_left (λ total (it : item),
               if Journal.is_done j it.1 then total + 1 else total)
            photos 0.

(** The [estimate] command.  The amounts of the cost and time lines are
    floating-point products of [remaining] and are not represented; the
    division by [max_workers] that computes the minutes precedes every
    output and raises [ZeroDivisionError] for a zero divisor. *)
Definition estimate (backend model : string) (max_workers : Z)
           (e : env) (w : world) : outcome * list echo_msg * world :=
  let total := Z.of_nat (length (all_photos e)) in
  match Journal.load ∅ Journal.init w with
  | (Raise x, _, w1) => (Crashed x, [], w1)
  | (Ok _, journal, w1) =>
      let already_done := count_done journal (all_photos e) in
      let remaining := total - already_done in
      if max_workers =? 0
      then (Crashed (OtherError "ZeroDivisionError"), [], w1)
      else
        (Returned,
         [EchoRemaining remaining total already_done;
          EchoBackend backend model; EchoCost; EchoTime],
         w1)
  end.

(** The order of [(str, int)] tuples: by the strings, then the numbers. *)
Definition tuple_le (a b : string * nat) : bool :=
  match String.compare a.1 b.1 with
  | Lt => true
  | Eq => (a.2 <=? b.2)%nat
  | Gt => false
  end.

(** [sorted(pairs)], as a stable insertion sort. *)
Fixpoint insert_sorted (x : string * nat) (l : list (string * nat))
  : list (string * nat) :=
  match l with
  | [] => [x]
  | y :: rest =>
      if tuple_le x y then x :: y :: rest else y :: insert_sorted x rest
  end.

Definition sorted (l : list (string * nat)) : list (string * nat) :=
  foldr insert_sorted [] l.

(** The [stats] command. *)
Definition stats (w : world) : outcome * list echo_msg * world :=
  match Journal.load ∅ Journal.init w with
  | (Raise x, _, w1) => (Crashed x, [], w1)
  | (Ok records, _, w1) =>
      if bool_decide (records = ∅) then (Exit 0, [EchoNoRecords], w1)
      else
        let counts :=
          Counter (map (λ kv, entry_status kv.2) (map_to_list records)) in
        let total := sum_values counts in
        (Returned,
         EchoTotalRecords total
           :: map (λ sc, EchoStatusCount sc.1 (Z.of_nat sc.2))
                  (sorted (map_to_list counts)),
         w1)
  end.

(** *** The pool as a transition system

    One [ThreadPoolExecutor(max_workers)] working on one batch: the
    submitted calls wait in [queue]; a worker takes the oldest one when
    fewer than [max_workers] calls are active; an active call ends, in
    any order, with the journal write of [process_one]. *)
Record pool : Type := {
  queue : list item;
  active : list item;
  finished : list item;
  pool_journal : CaptionJournal;
  pool_world : world
}.

Definition submit (batch : list item) (j : CaptionJournal) (w : world) : pool :=
  {| queue := batch; active := []; finished := [];
     pool_journal := j; pool_world := w |}.

Inductive pool_step (backend_name : string)
          (caption_of : string -> result string) (workers : nat)
  : pool -> pool -> Prop :=
| step_start it q a f j w :
    (length a < workers)%nat ->
    pool_step backend_name caption_of workers
      {| queue := it :: q; active := a; finished := f;
         pool_journal := j; pool_world := w |}
      {| queue := q; active := a ++ [it]; finished := f;
         pool_journal := j; pool_world := w |}
| step_finish it q a1 a2 f j w r j' w' :
    process_one backend_name caption_of it j w = (r, j', w') ->
    pool_step backend_name caption_of workers
      {| queue := q; active := a1 ++ it :: a2; finished := f;
         pool_journal := j; pool_world := w |}
      {| queue := q; active := a1 ++ a2; finished := f ++ [it];
         pool_journal := j'; pool_world := w' |}.

(** The pool states a run can be in: some batch of the pending list has
    been submitted and the pool has taken some steps.  Batches do not
    overlap, the [with] block of one ends before the next begins. *)
Definition pool_reachable (backend_name : string)
           (caption_of : string -> result string)
           (workers window : nat) (pending : list item) (p : pool) : Prop :=
  ∃ batch j w,
    batch ∈ _batched pending window ∧
    rtc (pool_step backend_name caption_of workers) (submit batch j w) p.

End Caption.


(** ** Notions used in the statements *)

(** A Python [str] free of lone surrogates, that is, under the
    representation used here, a well-formed UTF-8 byte string. *)
Definition is_text (s : string) : bool := Utf8.valid s.

Definition is_opt_text (o : option string) : bool :=
  match o with
  | Some s => is_text s
  | None => true
  end.

(** The arguments of one call [write(rel_path, caption, status)]. *)
Record call : Set := {
  call_key : string;
  call_caption : option string;
  call_status : string
}.

(** A call with text arguments and a status of the closed set. *)
Definition call_ok (c : call) : bool :=
  is_text (call_key c) && is_opt_text (call_caption c)
  && status_ok (call_status c).

Definition record_of (c : call) : CaptionRecord :=
  {| rel_path := call_key c; caption := call_caption c;
     status := call_status c |}.

Definition entry_of (r : CaptionRecord) : entry :=
  {| entry_caption := caption r; entry_status := status r |}.

(** A sequence of [write] calls on one journal object; the first call
    that raises ends it. *)
Fixpoint write_all (cs : list call) (j : CaptionJournal) (w : world)
  : result unit * CaptionJournal * world :=
  match cs with
  | [] => (Ok tt, j, w)
  | c :: rest =>
      match Journal.write (call_key c) (call_caption c) (call_status c) j w with
      | (Ok tt, j', w') => write_all rest j' w'
      | r => r
      end
  end.

(** The specification's "last write wins": the arguments of the last call
    made for [key], if any. *)
Fixpoint last_write (cs : list call) (key : string) : option entry :=
  match cs with
  | [] => None
  | c :: rest =>
      match last_write rest key with
      | Some e => Some e
      | None =>
          if String.eqb (call_key c) key
          then Some {| entry_caption := call_caption c;
                       entry_status := call_status c |}
          else None
      end
  end.

(** The bytes a journal holds after the records [rs] were appended to an
    empty or missing file, one line each. *)
Fixpoint journal_text (rs : list CaptionRecord) : string :=
  match rs with
  | [] => ""
  | r :: rest =>
      (model_dump_json r ++ String "010"%char "") ++ journal_text rest
  end.

(** The dict obtained by storing the records in order. *)
Definition store (m : gmap string entry) (r : CaptionRecord)
  : gmap string entry :=
  <[rel_path r := entry_of r]> m.

Definition store_all (rs : list CaptionRecord) (m : gmap string entry)
  : gmap string entry :=
  fold_left store rs m.

(** The JSON value of a record, member by member. *)
Definition caption_json (c : option string) : Json.value :=
  match c with
  | Some text => Json.JStr text
  | None => Json.JNull
  end.

Definition record_json (r : CaptionRecord) : Json.value :=
  Json.JObj [("rel_path", Json.JStr (rel_path r));
             ("caption", caption_json (caption r));
             ("status", Json.JStr (status r))].

(** A record made of text, with a status of the closed set. *)
Definition record_ok (r : CaptionRecord) : bool :=
  is_text (rel_path r) && is_opt_text (caption r) && status_ok (status r).

(** The journal file consists of the lines of the records [rs]: it has
    that content, or it does not exist and there are no records. *)
Definition holds (w : world) (rs : list CaptionRecord) : Prop :=
  disk w = Some (journal_text rs) ∨ (disk w = None ∧ rs = []).

(** What the loop of [load] makes of one line of the file: the record it
    stores, if any, and whether the line counts as discarded. *)
Definition accepted (line : string) : option CaptionRecord :=
  let line := Text.strip line in
  if String.eqb line "" then None
  else match model_validate_json line with
       | Ok r => Some r
       | Raise _ => None
       end.

Definition malformed (line : string) : bool :=
  let line := Text.strip line in
  if String.eqb line "" then false
  else match model_validate_json line with
       | Ok _ => false
       | Raise _ => true
       end.

Definition count_malformed (lines : list string) : nat :=
  length (List.filter malformed lines).

(** Text in quotes, and a line as [json.dumps] writes it in the tests of
    the repository. *)
Definition quoted (s : string) : string := QQ ++ s ++ QQ.

Definition dumps_line (rp cap st : string) : string :=
  "{" ++ quoted "rel_path" ++ ": " ++ quoted rp ++ ", "
  ++ quoted "caption" ++ ": " ++ quoted cap ++ ", "
  ++ quoted "status" ++ ": " ++ quoted st ++ "}".

(** A journal whose second line was cut, by a crash in the middle of a
    write, inside the two-byte character of "café": the line stops after
    the first byte, 195, of its last character. *)
Definition torn_line : string :=
  "{" ++ QQ ++ "rel_path" ++ QQ ++ ":" ++ QQ ++ "b.jpg" ++ QQ ++ ","
  ++ QQ ++ "caption" ++ QQ ++ ":" ++ QQ ++ "caf".

Definition torn_journal : string :=
  journal_text [ {| rel_path := "a.jpg"; caption := Some "a cat";
                    status := "success" |} ]
  ++ torn_line ++ String (Utf8.byte 195) "".

(** The journal object and the world after an accepted [write]. *)
Definition journal_after_write (rp : string) (j : CaptionJournal)
  : CaptionJournal :=
  {| _records := _records j; _done := {[rp]} ∪ _done j; _file := true |}.

Definition world_after_write (r : CaptionRecord) (w : world) : world :=
  set_disk (Journal.append_to (disk w)
              (model_dump_json r ++ String "010"%char "")) w.

(** The record an item ends up with, by what happened to it. *)
Definition outcome_record (backend_name : string)
           (caption_of : string -> result string) (it : item)
  : CaptionRecord :=
  match caption_of it.2 with
  | Ok text =>
      {| rel_path := it.1; caption := Some text; status := "success" |}
  | Raise CorruptImageError =>
      {| rel_path := it.1; caption := None; status := "error_corrupt" |}
  | Raise _ =>
      {| rel_path := it.1; caption := None;
         status := Caption.fallback_status backend_name |}
  end.

(** The warning [process_one] logs for a failed item. *)
Definition outcome_log (backend_name : string)
           (caption_of : string -> result string) (it : item)
  : list log_msg :=
  match caption_of it.2 with
  | Ok _ => []
  | Raise CorruptImageError => [LogItemWarning "error_corrupt" it.1]
  | Raise _ =>
      [LogItemWarning (Caption.fallback_status backend_name) it.1]
  end.

(** How many of [n] items a loop handles before the checkpoint test
    stops it, the counter being [processed] on entry. *)
Fixpoint handled (restart_every : Z) (n : nat) (processed : Z) : nat :=
  match n with
  | O => O
  | S k =>
      if Caption.checkpoint_reached restart_every (processed + 1) then 1%nat
      else S (handled restart_every k (processed + 1))
  end.

(** The item keys are text, and so is every caption the backend returns. *)
Definition text_items (items : list item) : Prop :=
  Forall (λ it : item, is_text it.1 = true) items.

Definition text_captions (caption_of : string -> result string) : Prop :=
  ∀ path text, caption_of path = Ok text -> is_text text = true.

(** The journal object and the world once [process_one] has run on each
    of [items], in this order. *)
Definition after_item (backend_name : string)
           (caption_of : string -> result string)
           (s : CaptionJournal * world) (it : item) : CaptionJournal * world :=
  (journal_after_write it.1 s.1,
   fold_left (λ w m, emit m w) (outcome_log backend_name caption_of it)
             (world_after_write (outcome_record backend_name caption_of it) s.2)).

Definition after_items (backend_name : string)
           (caption_of : string -> result string)
           (items : list item) (j : CaptionJournal) (w : world)
  : CaptionJournal * world :=
  fold_left (after_item backend_name caption_of) items (j, w).

(** The file after the lines of [rs] were appended to it, one call of
    [write] each. *)
Definition append_records (d : option string) (rs : list CaptionRecord)
  : option string :=
  fold_left
    (λ d r, Journal.append_to d (model_dump_json r ++ String "010"%char ""))
    rs d.

(** The three failure statuses. *)
Definition ERROR_STATUSES : list string :=
  ["error_corrupt"; "error_api"; "error_model"].

(** The same surroundings with another completion order. *)
Definition with_order (e : env) (order : list item -> list item) : env :=
  {| photos_dir_is_dir := photos_dir_is_dir e;
     all_photos := all_photos e;
     caption_of := caption_of e;
     completion_order := order |}.

(** What every state of a pool working on [batch] satisfies: no more
    active calls than workers; finished, active and waiting calls are the
    batch; the journal is what the finished calls, in their order, have
    written. *)
Definition pool_inv (backend_name : string)
           (caption_of : string -> result string) (workers : nat)
           (batch : list item) (j : CaptionJournal) (w : world)
           (p : Caption.pool) : Prop :=
  (length (Caption.active p) <= workers)%nat ∧
  (Caption.finished p ++ Caption.active p ++ Caption.queue p)%list ≡ₚ batch ∧
  (Caption.pool_journal p, Caption.pool_world p) =
  after_items backend_name caption_of (Caption.finished p) j w.

(** The pieces of [run], named for the statements below: the worker count
    after the clamp for the local backend, the pending list, and the exit
    taken once the loop has ended with [processed] items counted. *)
Definition workers_of (o : options) : Z :=
  if String.eqb (backend o) "local" && (1 <? max_workers o)
  then 1 else max_workers o.

Definition pending_of (j : CaptionJournal) (o : options) (photos : list item)
  : list item :=
  let pending :=
    filter (λ it : item, Journal.is_done j it.1 = false) photos in
  if 0 <? limit o then take (Z.to_nat (limit o)) pending else pending.

Definition report (o : options) (pending : list item) (processed : Z)
           (w : world) : outcome * world :=
  let remaining := Z.of_nat (length pending) - processed in
  if (0 <? restart_every o) && (0 <? remaining)
  then (Exit 2, emit (LogBatchDone processed remaining) w)
  else (Returned, emit (LogDone processed) w).

(** The journal object [run] works with after loading a file that holds
    the records [rs]. *)
Definition loaded (o : options) (rs : list CaptionRecord) : CaptionJournal :=
  {| _records := store_all rs ∅;
     _done := Journal.done_of (Caption.retry_set (retry_status o))
                              (store_all rs ∅);
     _file := false |}.

(** The conditions under which [run] gets as far as its loop: the photo
    directory exists, the backend name is known, the journal is loaded
    (no [--force]) and consists of well-formed records. *)
Definition ready (o : options) (e : env) (w : world)
           (rs : list CaptionRecord) : Prop :=
  photos_dir_is_dir e = true ∧
  (∃ b, load_backend (if dry_run o then "mock" else backend o) = Ok b) ∧
  force o = false ∧
  holds w rs ∧
  forallb record_ok rs = true.

(** The checkpoint scenario of the specification: a fresh journal, ten
    photos with distinct keys, threshold 4, no limit, no retry set; keys
    and captions are text, and the futures of a batch complete in some
    order of the batch. *)
Definition scenario (o : options) (e : env) : Prop :=
  photos_dir_is_dir e = true ∧
  (∃ b, load_backend (if dry_run o then "mock" else backend o) = Ok b) ∧
  force o = false ∧
  limit o = 0 ∧
  retry_status o = None ∧
  restart_every o = 4 ∧
  length (all_photos e) = 10%nat ∧
  NoDup (map fst (all_photos e)) ∧
  text_items (all_photos e) ∧
  text_captions (caption_of e) ∧
  (∀ b, completion_order e b ≡ₚ b).

(** The claim as the specification words it: whatever the worker count,
    a first run journals four items and exits with code 2, a second run
    journals the other six and returns. *)
Definition checkpoint_claim : Prop :=
  ∀ (o : options) (e : env) (w0 : world),
    scenario o e -> 1 <= max_workers o -> holds w0 [] ->
    ∃ (w1 w2 : world) (first rest : list item),
      Caption.run o e w0 = (Exit 2, w1) ∧
      length first = 4%nat ∧
      holds w1 (map (outcome_record (backend o) (caption_of e)) first) ∧
      Caption.run o e w1 = (Returned, w2) ∧
      length rest = 6%nat ∧
      holds w2 (map (outcome_record (backend o) (caption_of e))
                    (first ++ rest)).

(** Ten photos and a backend that always succeeds. *)
Definition ten_photos : list item :=
  map (λ name, (name, "/photos/" ++ name))
      ["p0.jpg"; "p1.jpg"; "p2.jpg"; "p3.jpg"; "p4.jpg";
       "p5.jpg"; "p6.jpg"; "p7.jpg"; "p8.jpg"; "p9.jpg"].

Definition ten_env : env :=
  {| photos_dir_is_dir := true;
     all_photos := ten_photos;
     caption_of := λ _, Ok "a photo";
     completion_order := λ batch, batch |}.

Definition checkpoint_options (workers : Z) : options :=
  {| backend := "mock"; max_workers := workers; limit := 0;
     restart_every := 4; retry_status := None; force := false;
     dry_run := false |}.

Definition fresh_world : world := {| disk := None; logged := [] |}.

(** The three end states of the specification, and a run's end state as
    the files show it: whether anything was pending when the run began
    and, if so, whether every pending key has a record in the journal the
    run leaves behind. *)
Inductive end_state : Set :=
| nothing_to_do
| checkpoint_reached
| fully_drained.

Definition journal_keys (w : world) : gset string :=
  match Journal.load ∅ Journal.init w with
  | (Ok m, _, _) => dom m
  | (Raise _, _, _) => ∅
  end.

Definition pending_before (o : options) (e : env) (w : world) : list item :=
  match Journal.load (Caption.retry_set (retry_status o)) Journal.init w with
  | (Ok _, j, _) => pending_of j o (all_photos e)
  | (Raise _, _, _) => []
  end.

Definition end_state_of (o : options) (e : env) (w : world) : end_state :=
  match pending_before o e w with
  | [] => nothing_to_do
  | pending =>
      if bool_decide
           (Forall (λ it : item,
                      it.1 ∈ journal_keys (Caption.run o e w).2) pending)
      then fully_drained
      else checkpoint_reached
  end.

(** The claim about exit signalling, read for the exit status of the
    process: two runs that end in different states report different
    statuses. *)
Definition exit_signal_claim : Prop :=
  ∀ (o : options) (e : env) (w : world) (rs : list CaptionRecord)
    (o' : options) (e' : env) (w' : world) (rs' : list CaptionRecord),
    ready o e w rs -> ready o' e' w' rs' ->
    end_state_of o e w ≠ end_state_of o' e' w' ->
    exit_code (Caption.run o e w).1 ≠ exit_code (Caption.run o' e' w').1.

(** A run without checkpoint on the ten photos. *)
Definition plain_options : options :=
  {| backend := "mock"; max_workers := 1; limit := 0;
     restart_every := 0; retry_status := None; force := false;
     dry_run := false |}.

(** How [run] ends in each end state. *)
Definition signal_of (s : end_state) : outcome :=
  match s with
  | nothing_to_do => Exit 0
  | checkpoint_reached => Exit 2
  | fully_drained => Returned
  end.

(** How often [s] occurs in [l]. *)
Definition occurrences (s : string) (l : list string) : nat :=
  length (filter (λ x, x = s) l).

(** [run] from the point where the journal object is set up: the pending
    list, the loop and the exit. *)
Definition run_from (o : options) (e : env) (j : CaptionJournal) (w : world)
  : outcome * world :=
  let pending := pending_of j o (all_photos e) in
  match pending with
  | [] => (Exit 0, emit LogNothingToDo w)
  | _ =>
      match
        (if workers_of o <=? 1 then
           Caption.sequential (backend o) (caption_of e) (restart_every o)
                              pending 0 j w
         else
           Caption.pooled (backend o) (caption_of e) (restart_every o)
                          (completion_order e)
                          (Caption._batched pending Caption.SUBMIT_BATCH)
                          false 0 j w)
      with
      | (Raise x, _, w2) => (Crashed x, w2)
      | (Ok processed, _, w2) => report o pending processed w2
      end
  end.

(** The same options with another worker count. *)
Definition with_workers (o : options) (n : Z) : options :=
  {| backend := backend o; max_workers := n; limit := limit o;
     restart_every := restart_every o; retry_status := retry_status o;
     force := force o; dry_run := dry_run o |}.

(** ** cluster_report.py *)

Module ClusterReport.

Definition VOCABULARY : list string :=
  ["a family photo"; "a group of people"; "a selfie"; "a portrait";
   "a landscape"; "a sunset"; "a beach"; "mountains";
   "food on a plate"; "a restaurant"; "cooking";
   "a pet"; "a dog"; "a cat";
   "a building"; "architecture"; "a city street";
   "a car"; "a vehicle";
   "a screenshot"; "text on a screen";
   "a celebration"; "a party"; "a wedding";
   "sports"; "exercise"; "outdoors activity";
   "flowers"; "a garden"; "nature";
   "a child"; "a baby";
   "an animal"; "wildlife";
   "artwork"; "a painting"; "a drawing"].

(** The truth value of [rec["caption"]]: a [str] that is not empty. *)
Definition truthy (c : option string) : bool :=
  match c with
  | Some (String _ _) => true
  | _ => false
  end.

(** The variables of the labelling loop.  A value of [labels] is a
    caption, the empty text, or [None]. *)
Record labelling : Type := {
  labels : gmap string (option string);
  caption_count : Z;
  error_count : Z;
  fallback_count : Z
}.

(** The body of [for rel_path, _ in all_photos], first loop. *)
Definition label_step (captions : gmap string entry) (st : labelling)
           (it : item) : labelling :=
  let rel_path := it.1 in
  let fallback :=
    {| labels := <[rel_path := None]> (labels st);
       caption_count := caption_count st;
       error_count := error_count st;
       fallback_count := fallback_count st + 1 |} in
  match captions !! rel_path with
  | Some rec =>
      if String.eqb (entry_status rec) "success" && truthy (entry_caption rec)
      then
        {| labels := <[rel_path := entry_caption rec]> (labels st);
           caption_count := caption_count st + 1;
           error_count := error_count st;
           fallback_count := fallback_count st |}
      else if String.prefix "error_" (entry_status rec)
      then
        {| labels := <[rel_path := Some ""]> (labels st);
           caption_count := caption_count st;
           error_count := error_count st + 1;
           fallback_count := fallback_count st |}
      else fallback
  | None => fallback
  end.

Definition label_all (captions : gmap string entry) (all_photos : list item)
  : labelling :=
  fold_left (label_step captions) all_photos
    {| labels := ∅; caption_count := 0; error_count := 0;
       fallback_count := 0 |}.

(** The body of the second loop: the accumulator is the pair
    [(texts_to_encode, photo_order)].  [labels[rel_path]] raises
    [KeyError] for a missing key, [VOCABULARY[0]] raises [IndexError] on
    an empty list. *)
Definition text_step (labels : gmap string (option string))
           (acc : result (list string * list string)) (it : item)
  : result (list string * list string) :=
  match acc with
  | Raise x => Raise x
  | Ok (texts_to_encode, photo_order) =>
      match labels !! it.1 with
      | None => Raise (OtherError "KeyError")
      | Some None =>
          match VOCABULARY !! 0%nat with
          | Some text =>
              Ok ((texts_to_encode ++ [text])%list,
                  (photo_order ++ [it.1])%list)
          | None => Raise (OtherError "IndexError")
          end
      | Some (Some label) =>
          if String.eqb label ""
          then Ok ((texts_to_encode ++ ["an unidentified photo"])%list,
                   (photo_order ++ [it.1])%list)
          else Ok ((texts_to_encode ++ [label])%list,
                   (photo_order ++ [it.1])%list)
      end
  end.

Definition texts_of (labels : gmap string (option string))
           (all_photos : list item) : result (list string * list string) :=
  fold_left (text_step labels) all_photos (Ok ([], [])).

(** A member of a cluster: [(rel_path, embeddings[i], texts_to_encode[i])],
    the embedding being represented by its row number [i]. *)
Definition member : Set := (string * nat * string)%type.

(** The body of [for i, rel_path in enumerate(photo_order)]:
    [cluster_labels] is what [fit_predict] returned; an index out of
    range raises [IndexError]. *)
Definition group_step (cluster_labels : list Z) (texts_to_encode : list string)
           (acc : result (gmap Z (list member))) (ip : nat * string)
  : result (gmap Z (list member)) :=
  match acc with
  | Raise x => Raise x
  | Ok clusters =>
      match cluster_labels !! ip.1, texts_to_encode !! ip.1 with
      | Some cl, Some text =>
          Ok (<[cl := (default [] (clusters !! cl) ++ [(ip.2, ip.1, text)])%list]>
                clusters)
      | _, _ => Raise (OtherError "IndexError")
      end
  end.

(** [enumerate(l)] *)
Definition enumerate {A : Type} (l : list A) : list (nat * A) :=
  zip (seq 0 (length l)) l.

Definition group (cluster_labels : list Z) (texts_to_encode : list string)
           (photo_order : list string) : result (gmap Z (list member)) :=
  fold_left (group_step cluster_labels texts_to_encode)
            (enumerate photo_order) (Ok ∅).

End ClusterReport.

(** The text a photo is encoded with, read off its record: the caption
    of a successful record if it has one, a fixed text for a failed
    one, the first vocabulary entry when there is nothing to go by. *)
Definition text_for (captions : gmap string entry) (rel_path : string)
  : string :=
  match captions !! rel_path with
  | None => "a family photo"
  | Some rec =>
      if String.eqb (entry_status rec) "success"
      then match entry_caption rec with
           | Some (String c rest) => String c rest
           | _ => "a family photo"
           end
      else "an unidentified photo"
  end.

(** The label the first loop of the cluster report stores for a key. *)
Definition label_for (captions : gmap string entry) (rel_path : string)
  : option string :=
  match captions !! rel_path with
  | Some rec =>
      if String.eqb (entry_status rec) "success"
         && ClusterReport.truthy (entry_caption rec)
      then entry_caption rec
      else if String.prefix "error_" (entry_status rec) then Some ""
      else None
  | None => None
  end.

(** The photos that [fit_predict] has put in cluster [cl], in the order
    of the photos. *)
Definition members_of (cluster_labels : list Z) (texts_to_encode : list string)
           (photo_order : list string) (cl : Z) : list ClusterReport.member :=
  omap (λ ip : nat * string,
          match cluster_labels !! ip.1, texts_to_encode !! ip.1 with
          | Some c, Some text =>
              if bool_decide (c = cl) then Some (ip.2, ip.1, text) else None
          | _, _ => None
          end)
       (ClusterReport.enumerate photo_order).

(** * Properties *)

(** ** Strings *)

Module TextFacts.

Lemma app_cons (c : ascii) (s t : string) :
  String c s ++ t = String c (s ++ t).
Proof. reflexivity. Qed.

Lemma app_empty_l (t : string) : "" ++ t = t.
Proof. reflexivity. Qed.

Lemma app_empty_r (s : string) : s ++ "" = s.
Proof. induction s as [|c s IH]; [reflexivity|]. rewrite app_cons, IH. reflexivity. Qed.

Lemma app_assoc (s t u : string) : (s ++ t) ++ u = s ++ (t ++ u).
Proof.
  induction s as [|c s IH]; [reflexivity|].
  rewrite !app_cons, IH. reflexivity.
Qed.

Lemma length_app (s t : string) :
  String.length (s ++ t) = (String.length s + String.length t)%nat.
Proof.
  induction s as [|c s IH]; [reflexivity|].
  rewrite app_cons. simpl. rewrite IH. reflexivity.
Qed.

Lemma rev_app_app (s t acc : string) :
  String.rev_app (s ++ t) acc = String.rev_app t (String.rev_app s acc).
Proof.
  revert acc. induction s as [|c s IH]; intros acc; [reflexivity|].
  rewrite app_cons. simpl. apply IH.
Qed.

Lemma rev_snoc (s : string) (c : ascii) :
  String.rev (s ++ String c "") = String c (String.rev s).
Proof. unfold String.rev. rewrite rev_app_app. reflexivity. Qed.

Lemma rev_app_spec (s acc : string) :
  String.rev_app s acc = String.rev s ++ acc.
Proof.
  revert acc. induction s as [|c s IH]; intros acc; [reflexivity|].
  unfold String.rev. simpl. rewrite !IH, app_assoc. reflexivity.
Qed.

Lemma rev_cons (c : ascii) (s : string) :
  String.rev (String c s) = String.rev s ++ String c "".
Proof. unfold String.rev. simpl. apply rev_app_spec. Qed.

Lemma rev_involutive (s : string) : String.rev (String.rev s) = s.
Proof.
  induction s as [|c s IH]; [reflexivity|].
  rewrite rev_cons, rev_snoc, IH. reflexivity.
Qed.

(** A character that is no line terminator joins the current line. *)
Lemma lines_from_char (c : ascii) (cur rest : string) :
  Text.is_newline c = false ->
  Text.lines_from cur (String c rest) =
  Text.lines_from (cur ++ String c "") rest.
Proof.
  destruct c as [[] [] [] [] [] [] [] []]; intros H;
    try discriminate H; reflexivity.
Qed.

Lemma lines_from_lf (cur rest : string) :
  Text.lines_from cur (String "010"%char rest) =
  cur :: Text.lines_from "" rest.
Proof. reflexivity. Qed.

Lemma all_chars_app p (s t : string) :
  Text.all_chars p (s ++ t) = Text.all_chars p s && Text.all_chars p t.
Proof.
  induction s as [|c s IH]; [reflexivity|].
  rewrite app_cons. simpl. rewrite IH, andb_assoc. reflexivity.
Qed.

Lemma printable_not_newline (c : ascii) :
  Json.printable c = true -> Text.is_newline c = false.
Proof.
  destruct c as [[] [] [] [] [] [] [] []]; intros H;
    try discriminate H; reflexivity.
Qed.

(** One complete line followed by more text. *)
Lemma lines_from_line (l cur rest : string) :
  Text.all_chars Json.printable l = true ->
  Text.lines_from cur (l ++ String "010"%char rest) =
  (cur ++ l) :: Text.lines_from "" rest.
Proof.
  revert cur. induction l as [|c l IH]; intros cur H.
  - rewrite app_empty_l, app_empty_r. apply lines_from_lf.
  - simpl in H. apply andb_true_iff in H as [Hc Hl].
    rewrite app_cons, lines_from_char by (apply printable_not_newline, Hc).
    rewrite IH by exact Hl. rewrite app_assoc. reflexivity.
Qed.

(** Text that begins with a brace and ends with one is left alone by
    [strip]. *)
Lemma strip_with_none f n s : f s = None -> Text.strip_with f n s = s.
Proof. intros H. destruct n; simpl; [reflexivity|]. rewrite H. reflexivity. Qed.

Lemma lstrip_brace (s : string) :
  Text.lstrip (String "{"%char s) = String "{"%char s.
Proof. apply strip_with_none. reflexivity. Qed.

Lemma rstrip1_brace (s : string) : Text.rstrip1 (String "}"%char s) = None.
Proof.
  destruct s as [|d [|e s]]; try reflexivity; unfold Text.rstrip1;
    cbv beta iota zeta;
    change (Text.code "}"%char) with 125%N; simpl;
    rewrite ?andb_false_r; reflexivity.
Qed.

Lemma rstrip_brace (s : string) :
  Text.rstrip (s ++ "}") = s ++ "}".
Proof.
  unfold Text.rstrip. rewrite rev_snoc, strip_with_none by apply rstrip1_brace.
  rewrite <- rev_snoc. apply rev_involutive.
Qed.

Lemma strip_braces (s : string) :
  Text.strip (String "{"%char (s ++ "}")) = String "{"%char (s ++ "}").
Proof.
  unfold Text.strip. rewrite lstrip_brace.
  change (String "{"%char (s ++ "}")) with (String "{"%char s ++ "}").
  apply rstrip_brace.
Qed.

End TextFacts.

(** ** Well-formed UTF-8 *)

Module Utf8Facts.
Import TextFacts.

Lemma run_cons (q : Utf8.state) (c : ascii) (s : string) :
  Utf8.run q (String c s) =
  match Utf8.step q c with
  | Some q' => Utf8.run q' s
  | None => None
  end.
Proof. reflexivity. Qed.

Lemma run_app (q : Utf8.state) (s t : string) :
  Utf8.run q (s ++ t) =
  match Utf8.run q s with
  | Some q' => Utf8.run q' t
  | None => None
  end.
Proof.
  revert q. induction s as [|c s IH]; intros q; [reflexivity|].
  rewrite app_cons. simpl. destruct (Utf8.step q c); [apply IH|reflexivity].
Qed.

Lemma valid_app (s t : string) :
  Utf8.valid s = true -> Utf8.valid (s ++ t) = Utf8.valid t.
Proof.
  unfold Utf8.valid. intros H. rewrite run_app.
  destruct (Utf8.run Utf8.Start s) as [[]|]; try discriminate H. reflexivity.
Qed.

(** ASCII bytes are read at a character boundary and nowhere else. *)
Lemma step_ascii (q : Utf8.state) (c : ascii) :
  Utf8.is_ascii c = true ->
  Utf8.step q c = match q with Utf8.Start => Some Utf8.Start | _ => None end.
Proof.
  unfold Utf8.is_ascii, Utf8.step, Utf8.between. intros H.
  apply N.ltb_lt in H.
  destruct q; [rewrite (proj2 (N.ltb_lt _ _) H); reflexivity|..];
    match goal with
    | |- context [(?a <=? ?n)%N && _] =>
        replace (a <=? n)%N with false by (symmetry; apply N.leb_gt; lia)
    end; reflexivity.
Qed.

Lemma run_ascii (s t : string) :
  Text.all_chars Utf8.is_ascii s = true ->
  Utf8.run Utf8.Start (s ++ t) = Utf8.run Utf8.Start t.
Proof.
  induction s as [|c s IH]; intros H; [reflexivity|].
  simpl in H. apply andb_true_iff in H as [Hc Hs].
  rewrite app_cons, run_cons, step_ascii by exact Hc. apply IH, Hs.
Qed.

Lemma valid_ascii (s : string) :
  Text.all_chars Utf8.is_ascii s = true -> Utf8.valid s = true.
Proof.
  intros H. unfold Utf8.valid.
  rewrite <- (app_empty_r s), run_ascii by exact H. reflexivity.
Qed.

(** The serializer replaces ASCII characters by ASCII text and copies
    every other byte. *)
Lemma escape_char_ascii (c : ascii) :
  Utf8.is_ascii c = true ->
  Text.all_chars Utf8.is_ascii (Json.escape_char c) = true /\
  Json.escape_char c <> "".
Proof.
  destruct c as [[] [] [] [] [] [] [] []]; intros H;
    try discriminate H; split; try reflexivity; discriminate.
Qed.

Lemma escape_char_high (c : ascii) :
  Utf8.is_ascii c = false -> Json.escape_char c = String c "".
Proof.
  destruct c as [[] [] [] [] [] [] [] []]; intros H;
    try discriminate H; reflexivity.
Qed.

Lemma run_escape (q : Utf8.state) (s : string) :
  Utf8.run q (Json.escape s) = Utf8.run q s.
Proof.
  revert q. induction s as [|c s IH]; intros q; [reflexivity|].
  change (Json.escape (String c s)) with (Json.escape_char c ++ Json.escape s).
  rewrite run_cons.
  destruct (Utf8.is_ascii c) eqn:Hc.
  - destruct (escape_char_ascii c Hc) as [Ha Hne].
    rewrite step_ascii by exact Hc.
    destruct q;
      try (destruct (Json.escape_char c) as [|d e] eqn:He;
           [congruence|];
           simpl in Ha; apply andb_true_iff in Ha as [Hd _];
           rewrite app_cons, run_cons, step_ascii by exact Hd;
           reflexivity).
    rewrite run_ascii by exact Ha. apply IH.
  - rewrite escape_char_high by exact Hc.
    rewrite app_cons, app_empty_l, run_cons.
    destruct (Utf8.step q c); [apply IH|reflexivity].
Qed.

Lemma valid_escape (s : string) : Utf8.valid (Json.escape s) = Utf8.valid s.
Proof. unfold Utf8.valid. rewrite run_escape. reflexivity. Qed.

(** Escaped text is printable: no control character, hence no line
    terminator, is left. *)
Lemma escape_char_printable (c : ascii) :
  Text.all_chars Json.printable (Json.escape_char c) = true.
Proof. destruct c as [[] [] [] [] [] [] [] []]; reflexivity. Qed.

Lemma escape_printable (s : string) :
  Text.all_chars Json.printable (Json.escape s) = true.
Proof.
  induction s as [|c s IH]; [reflexivity|].
  change (Json.escape (String c s)) with (Json.escape_char c ++ Json.escape s).
  rewrite all_chars_app, escape_char_printable, IH. reflexivity.
Qed.

End Utf8Facts.

(** ** Reading back what the serializer wrote *)

Module JsonFacts.
Import TextFacts.

(** A string literal is read back as the text it was made from. *)
Lemma read_chars_escape (s rest : string) :
  Json.read_chars (Json.escape s ++ String "034"%char rest) = Some (s, rest).
Proof.
  induction s as [|c s IH]; [reflexivity|].
  change (Json.escape (String c s)) with (Json.escape_char c ++ Json.escape s).
  rewrite app_assoc.
  remember (Json.escape s ++ String "034"%char rest) as tail eqn:E.
  destruct c as [[] [] [] [] [] [] [] []];
    cbv [Json.escape_char Json.is_control Text.code N_of_ascii N_of_digits
         N.add N.mul N.ltb N.compare Pos.compare Pos.compare_cont Pos.add
         Pos.mul Pos.succ];
    rewrite ?app_cons, ?app_empty_l;
    simpl; rewrite ?app_cons, ?app_empty_l, IH; reflexivity.
Qed.

Lemma read_value_dump (n : nat) (r : CaptionRecord) :
  Json.read_value (5 + n) (model_dump_json r) = Some (record_json r, "").
Proof.
  destruct r as [rp cap st]. unfold model_dump_json, record_json, Json.quote.
  cbn [rel_path caption status caption_json].
  rewrite ?app_assoc, ?app_cons, ?app_empty_l.
  simpl. rewrite read_chars_escape. simpl.
  destruct cap as [c|].
  - rewrite ?app_assoc, ?app_cons, ?app_empty_l. simpl.
    rewrite read_chars_escape. simpl.
    rewrite (read_chars_escape st "}"). reflexivity.
  - rewrite ?app_assoc, ?app_cons, ?app_empty_l. simpl.
    rewrite (read_chars_escape st "}"). reflexivity.
Qed.

Lemma dump_shape (r : CaptionRecord) :
  exists body, model_dump_json r = String "{"%char (body ++ "}").
Proof.
  unfold model_dump_json. rewrite <- !app_assoc, app_cons. eauto.
Qed.

Lemma dump_length (r : CaptionRecord) :
  exists n, S (String.length (model_dump_json r)) = (5 + n)%nat.
Proof.
  unfold model_dump_json. rewrite !app_cons. simpl. eauto.
Qed.

Lemma parse_dump (r : CaptionRecord) :
  Json.parse (model_dump_json r) = Some (record_json r).
Proof.
  unfold Json.parse. destruct (dump_length r) as [n ->].
  rewrite read_value_dump. reflexivity.
Qed.

(** What [model_dump_json] writes, [model_validate_json] reads back. *)
Lemma validate_dump (r : CaptionRecord) :
  status_ok (status r) = true ->
  model_validate_json (model_dump_json r) = Ok r.
Proof.
  intros Hst. unfold model_validate_json. rewrite parse_dump.
  destruct r as [rp cap st]. simpl in Hst.
  destruct cap as [c|]; simpl; unfold CaptionRecord_init; rewrite Hst;
    reflexivity.
Qed.

Lemma strip_dump (r : CaptionRecord) :
  Text.strip (model_dump_json r) = model_dump_json r.
Proof. destruct (dump_shape r) as [body ->]. apply strip_braces. Qed.

Lemma dump_not_blank (r : CaptionRecord) :
  String.eqb (model_dump_json r) "" = false.
Proof. destruct (dump_shape r) as [body ->]. reflexivity. Qed.

Lemma quote_printable (s : string) :
  Text.all_chars Json.printable (Json.quote s) = true.
Proof.
  unfold Json.quote. rewrite !all_chars_app, Utf8Facts.escape_printable.
  reflexivity.
Qed.

Lemma dump_printable (r : CaptionRecord) :
  Text.all_chars Json.printable (model_dump_json r) = true.
Proof.
  unfold model_dump_json. rewrite !all_chars_app, !quote_printable.
  destruct (caption r); [rewrite quote_printable|]; reflexivity.
Qed.

Lemma quote_valid (s : string) :
  Utf8.valid s = true -> Utf8.valid (Json.quote s) = true.
Proof.
  intros H. unfold Json.quote.
  rewrite (Utf8Facts.valid_app (String "034"%char "")) by reflexivity.
  rewrite Utf8Facts.valid_app by (rewrite Utf8Facts.valid_escape; exact H).
  reflexivity.
Qed.

End JsonFacts.

(** ** The journal *)

Module JournalFacts.
Import TextFacts Utf8Facts JsonFacts.

Lemma status_ok_elim (st : string) :
  status_ok st = true -> st ∈ STATUSES.
Proof. unfold status_ok. intros H. exact (bool_decide_eq_true_1 _ H). Qed.

Lemma status_ok_text (st : string) :
  status_ok st = true -> Utf8.valid st = true.
Proof.
  intros H%status_ok_elim. unfold STATUSES in H.
  repeat (apply elem_of_cons in H as [->|H]; [reflexivity|]).
  inversion H.
Qed.

Lemma dump_valid (r : CaptionRecord) :
  record_ok r = true -> Utf8.valid (model_dump_json r) = true.
Proof.
  unfold record_ok, is_text. intros H.
  apply andb_true_iff in H as [H Hst]. apply andb_true_iff in H as [Hrp Hcap].
  apply status_ok_text in Hst.
  unfold model_dump_json.
  rewrite valid_app by reflexivity.
  rewrite valid_app by (apply quote_valid, Hrp).
  rewrite valid_app by reflexivity.
  rewrite valid_app
    by (destruct (caption r); [apply quote_valid, Hcap|reflexivity]).
  rewrite valid_app by reflexivity.
  rewrite valid_app by (apply quote_valid, Hst).
  reflexivity.
Qed.

Lemma record_ok_status (r : CaptionRecord) :
  record_ok r = true -> status_ok (status r) = true.
Proof. unfold record_ok. intros H. apply andb_true_iff in H as [_ H]. exact H. Qed.

Lemma journal_text_cons (r : CaptionRecord) (rs : list CaptionRecord) :
  journal_text (r :: rs) =
  model_dump_json r ++ String "010"%char (journal_text rs).
Proof. simpl. rewrite app_assoc. reflexivity. Qed.

(** The journal text is well formed and falls into one line per record. *)
Lemma journal_text_valid (rs : list CaptionRecord) :
  forallb record_ok rs = true -> Utf8.valid (journal_text rs) = true.
Proof.
  induction rs as [|r rs IH]; intros H; [reflexivity|].
  simpl in H. apply andb_true_iff in H as [Hr Hrs].
  rewrite journal_text_cons, valid_app by (apply dump_valid, Hr).
  change (String "010"%char (journal_text rs))
    with (String "010"%char "" ++ journal_text rs).
  rewrite valid_app by reflexivity.
  apply IH, Hrs.
Qed.

Lemma journal_text_lines (rs : list CaptionRecord) :
  Text.file_lines (journal_text rs) = map model_dump_json rs.
Proof.
  unfold Text.file_lines. induction rs as [|r rs IH]; [reflexivity|].
  rewrite journal_text_cons, lines_from_line by apply dump_printable.
  rewrite app_empty_l, IH. reflexivity.
Qed.

Lemma journal_text_app (rs1 rs2 : list CaptionRecord) :
  journal_text (rs1 ++ rs2) = journal_text rs1 ++ journal_text rs2.
Proof.
  induction rs1 as [|r rs1 IH]; [reflexivity|].
  rewrite <- List.app_comm_cons, !journal_text_cons, IH, app_assoc.
  reflexivity.
Qed.

(** Replaying a serialized record stores it. *)
Lemma load_line_dump (m : gmap string entry) (d : nat) (r : CaptionRecord) :
  status_ok (status r) = true ->
  Journal.load_line (Ok (m, d)) (model_dump_json r) = Ok (store m r, d).
Proof.
  intros H. unfold Journal.load_line.
  rewrite strip_dump, dump_not_blank, validate_dump by exact H.
  reflexivity.
Qed.

Lemma replay_from_dump (rs : list CaptionRecord) (m : gmap string entry) (d : nat) :
  forallb record_ok rs = true ->
  fold_left Journal.load_line (map model_dump_json rs) (Ok (m, d)) =
  Ok (store_all rs m, d).
Proof.
  revert m. induction rs as [|r rs IH]; intros m H; [reflexivity|].
  simpl in H. apply andb_true_iff in H as [Hr Hrs].
  cbn [List.map fold_left].
  rewrite load_line_dump by (apply record_ok_status, Hr).
  apply IH, Hrs.
Qed.

(** Loading a journal made of the records [rs]. *)
Lemma load_journal_text (retry : gset string) (j : CaptionJournal)
      (w : world) (rs : list CaptionRecord) :
  forallb record_ok rs = true ->
  disk w = Some (journal_text rs) ->
  Journal.load retry j w =
  (Ok (store_all rs ∅),
   {| _records := store_all rs ∅;
      _done := Journal.done_of retry (store_all rs ∅);
      _file := _file j |},
   w).
Proof.
  intros Hok Hd. unfold Journal.load, Utf8.decode, Journal.replay.
  rewrite Hd, journal_text_valid, journal_text_lines, replay_from_dump
    by exact Hok.
  reflexivity.
Qed.

(** A missing file loads as the empty journal. *)
Lemma load_missing (retry : gset string) (j : CaptionJournal) (w : world) :
  disk w = None ->
  Journal.load retry j w =
  (Ok ∅, {| _records := ∅; _done := ∅; _file := _file j |}, w).
Proof. intros Hd. unfold Journal.load. rewrite Hd. reflexivity. Qed.

Lemma load_holds (retry : gset string) (j : CaptionJournal)
      (w : world) (rs : list CaptionRecord) :
  forallb record_ok rs = true ->
  holds w rs ->
  Journal.load retry j w =
  (Ok (store_all rs ∅),
   {| _records := store_all rs ∅;
      _done := Journal.done_of retry (store_all rs ∅);
      _file := _file j |},
   w).
Proof.
  intros Hok [Hd|[Hd ->]].
  - apply load_journal_text; assumption.
  - rewrite load_missing by exact Hd. reflexivity.
Qed.

(** A call with a status of the closed set appends one line. *)
Lemma write_accepts (rp : string) (cap : option string) (st : string)
      (j : CaptionJournal) (w : world) :
  status_ok st = true ->
  Journal.write rp cap st j w =
  (Ok tt,
   {| _records := _records j; _done := {[rp]} ∪ _done j; _file := true |},
   set_disk
     (Journal.append_to (disk w)
        (model_dump_json {| rel_path := rp; caption := cap; status := st |}
         ++ String "010"%char "")) w).
Proof.
  intros H. unfold Journal.write, CaptionRecord_init. rewrite H. reflexivity.
Qed.

Lemma journal_text_snoc (rs : list CaptionRecord) (r : CaptionRecord) :
  journal_text (rs ++ [r]) =
  journal_text rs ++ model_dump_json r ++ String "010"%char "".
Proof.
  rewrite journal_text_app. simpl. rewrite app_empty_r. reflexivity.
Qed.

Lemma holds_append (w : world) (rs : list CaptionRecord) (r : CaptionRecord) :
  holds w rs ->
  holds (set_disk (Journal.append_to (disk w)
                     (model_dump_json r ++ String "010"%char "")) w)
        (rs ++ [r]).
Proof.
  intros [Hd|[Hd ->]]; left; simpl; rewrite Hd; simpl.
  - rewrite journal_text_snoc. reflexivity.
  - rewrite app_empty_r. reflexivity.
Qed.

(** A sequence of acceptable calls goes through and appends the lines
    of its records in order. *)
Lemma write_all_holds (cs : list call) (j : CaptionJournal) (w : world)
      (rs : list CaptionRecord) :
  forallb call_ok cs = true ->
  holds w rs ->
  exists j' w',
    write_all cs j w = (Ok tt, j', w') /\
    holds w' (rs ++ map record_of cs) /\
    logged w' = logged w /\
    _records j' = _records j /\
    _done j' = list_to_set (map call_key cs) ∪ _done j.
Proof.
  revert j w rs. induction cs as [|c cs IH]; intros j w rs Hok Hh.
  - exists j, w. rewrite List.app_nil_r. simpl.
    split; [reflexivity|]. split; [exact Hh|].
    split; [reflexivity|]. split; [reflexivity|]. set_solver.
  - simpl in Hok. apply andb_true_iff in Hok as [Hc Hcs].
    assert (Hst : status_ok (call_status c) = true).
    { unfold call_ok in Hc. apply andb_true_iff in Hc as [_ Hc]. exact Hc. }
    cbn [write_all]. rewrite write_accepts by exact Hst.
    match goal with
    | |- context [write_all cs ?j1 ?w1] =>
        destruct (IH j1 w1 (rs ++ [record_of c])%list Hcs)
          as (j' & w' & E & Hh' & Hl & Hr & Hd);
        [apply (holds_append w rs (record_of c)), Hh|]
    end.
    exists j', w'. rewrite E.
    split; [reflexivity|]. split.
    { rewrite <- List.app_assoc in Hh'. exact Hh'. }
    split; [rewrite Hl; reflexivity|].
    split; [rewrite Hr; reflexivity|].
    rewrite Hd. simpl. set_solver.
Qed.

(** The dict built by storing records holds, under each key, the record
    stored last. *)
Lemma store_all_lookup (cs : list call) (m : gmap string entry) (k : string) :
  store_all (map record_of cs) m !! k =
  match last_write cs k with
  | Some e => Some e
  | None => m !! k
  end.
Proof.
  revert m. induction cs as [|c cs IH]; intros m; [reflexivity|].
  cbn [List.map store_all fold_left last_write].
  change (fold_left store (map record_of cs) (store m (record_of c)))
    with (store_all (map record_of cs) (store m (record_of c))).
  rewrite IH. destruct (last_write cs k); [reflexivity|].
  unfold store. cbn [rel_path record_of].
  destruct (String.eqb_spec (call_key c) k) as [->|Hne].
  - rewrite lookup_insert_eq. reflexivity.
  - rewrite lookup_insert_ne by exact Hne. reflexivity.
Qed.

Lemma last_write_dom (cs : list call) (k : string) :
  is_Some (last_write cs k) <-> k ∈ map call_key cs.
Proof.
  induction cs as [|c cs IH]; simpl.
  - split; [intros [? H]; discriminate H|intros H; inversion H].
  - rewrite elem_of_cons, <- IH.
    destruct (last_write cs k) as [e|].
    + split; [right|]; eauto.
    + destruct (String.eqb_spec (call_key c) k) as [->|Hne].
      * split; [left|]; eauto.
      * split; [intros [? H]; discriminate H|].
        intros [H|[? H]]; [congruence|discriminate H].
Qed.

End JournalFacts.

(** ** Replay of an arbitrary text *)

Module ReplayFacts.
Import TextFacts Utf8Facts JsonFacts JournalFacts.

(** The validator raises nothing but [ValidationError]. *)
Lemma validate_raises (line : string) (e : exn) :
  model_validate_json line = Raise e -> e = ValidationError.
Proof.
  unfold model_validate_json, CaptionRecord_init. intros H.
  repeat match type of H with
         | match ?x with _ => _ end = _ => destruct x
         | (if ?b then _ else _) = _ => destruct b
         end; congruence.
Qed.

Lemma load_line_total (m : gmap string entry) (d : nat) (line : string) :
  Journal.load_line (Ok (m, d)) line =
  Ok (match accepted line with Some r => store m r | None => m end,
      if malformed line then S d else d).
Proof.
  unfold Journal.load_line, accepted, malformed.
  destruct (String.eqb (Text.strip line) ""); [reflexivity|].
  destruct (model_validate_json (Text.strip line)) as [r|e] eqn:E;
    [reflexivity|].
  rewrite (validate_raises _ _ E). reflexivity.
Qed.

Lemma store_all_omap_cons (line : string) (lines : list string)
      (m : gmap string entry) :
  store_all (omap accepted (line :: lines)) m =
  store_all (omap accepted lines)
    (match accepted line with Some r => store m r | None => m end).
Proof.
  cbn [omap list_omap]. destruct (accepted line); reflexivity.
Qed.

Lemma count_malformed_cons (line : string) (lines : list string) :
  count_malformed (line :: lines) =
  ((if malformed line then 1 else 0) + count_malformed lines)%nat.
Proof.
  unfold count_malformed. simpl. destruct (malformed line); reflexivity.
Qed.

(** Replay never raises: it stores the accepted lines in order and
    counts the malformed ones. *)
Lemma replay_from (lines : list string) (m : gmap string entry) (d : nat) :
  fold_left Journal.load_line lines (Ok (m, d)) =
  Ok (store_all (omap accepted lines) m, (d + count_malformed lines)%nat).
Proof.
  revert m d. induction lines as [|line lines IH]; intros m d.
  - simpl. unfold count_malformed. simpl. rewrite Nat.add_0_r. reflexivity.
  - cbn [fold_left]. rewrite load_line_total, IH, store_all_omap_cons,
      count_malformed_cons.
    destruct (malformed line); do 2 f_equal; lia.
Qed.

Lemma replay_total (lines : list string) :
  Journal.replay lines =
  Ok (store_all (omap accepted lines) ∅, count_malformed lines).
Proof. unfold Journal.replay. rewrite replay_from. reflexivity. Qed.

(** Loading a file that decodes: every line is looked at, the accepted
    ones are stored, the others are counted and reported. *)
Lemma load_text (retry : gset string) (j : CaptionJournal) (w : world)
      (text : string) :
  disk w = Some text ->
  Utf8.valid text = true ->
  let lines := Text.file_lines text in
  let m := store_all (omap accepted lines) ∅ in
  Journal.load retry j w =
  (Ok m,
   {| _records := m; _done := Journal.done_of retry m; _file := _file j |},
   if Nat.eqb (count_malformed lines) 0 then w
   else emit (LogDiscarded (count_malformed lines)) w).
Proof.
  intros Hd Hv. unfold Journal.load, Utf8.decode.
  rewrite Hd, Hv, replay_total. reflexivity.
Qed.

Lemma store_all_app (rs1 rs2 : list CaptionRecord) (m : gmap string entry) :
  store_all (rs1 ++ rs2) m = store_all rs2 (store_all rs1 m).
Proof. unfold store_all. apply fold_left_app. Qed.

Lemma store_all_keeps (rs : list CaptionRecord) (m : gmap string entry)
      (k : string) :
  is_Some (m !! k) -> is_Some (store_all rs m !! k).
Proof.
  revert m. induction rs as [|r rs IH]; intros m H; [exact H|].
  cbn [store_all fold_left]. apply IH. unfold store.
  destruct (decide (rel_path r = k)) as [->|Hne].
  - rewrite lookup_insert_eq. eauto.
  - rewrite lookup_insert_ne by exact Hne. exact H.
Qed.

Lemma store_all_other (rs : list CaptionRecord) (m : gmap string entry)
      (k : string) :
  Forall (λ r, rel_path r ≠ k) rs -> store_all rs m !! k = m !! k.
Proof.
  revert m. induction rs as [|r rs IH]; intros m H; [reflexivity|].
  inversion H as [|? ? Hr Hrs]; subst.
  cbn [store_all fold_left].
  change (fold_left store rs (store m r)) with (store_all rs (store m r)).
  rewrite IH by exact Hrs. unfold store.
  rewrite lookup_insert_ne by exact Hr. reflexivity.
Qed.

End ReplayFacts.

(** ** The journal: round trip, done set, tolerance, rejection *)

Import TextFacts Utf8Facts JsonFacts JournalFacts ReplayFacts.

(** C1.  Round trip, last write wins.  On a journal file that is missing
    or empty, every sequence of [write] calls with text arguments and
    statuses of the closed set goes through; after [close()], a fresh
    [load()] returns a dict whose keys are exactly the keys written and
    which holds, under each key, the caption and status of the last call
    made for that key. *)
Theorem roundtrip_last_write_wins (cs : list call) (j0 : CaptionJournal)
        (w0 : world) :
  disk w0 = None ∨ disk w0 = Some "" ->
  forallb call_ok cs = true ->
  ∃ j1 w1 m,
    write_all cs j0 w0 = (Ok tt, j1, w1) ∧
    _file (Journal.close j1) = false ∧
    (∀ retry, ∃ j2, Journal.load retry Journal.init w1 = (Ok m, j2, w1)) ∧
    (∀ k, m !! k = last_write cs k) ∧
    dom m = list_to_set (map call_key cs).
Proof.
  intros Hfresh Hok.
  assert (Hh : holds w0 []).
  { destruct Hfresh as [H|H]; [right|left]; auto. }
  destruct (write_all_holds cs j0 w0 [] Hok Hh)
    as (j1 & w1 & E & Hh1 & _ & _ & _).
  rewrite List.app_nil_l in Hh1.
  assert (Hrs : forallb record_ok (map record_of cs) = true).
  { rewrite forallb_forall in Hok. apply forallb_forall.
    intros r Hr. apply in_map_iff in Hr as (c & <- & Hc). apply Hok, Hc. }
  exists j1, w1, (store_all (map record_of cs) ∅).
  split; [exact E|]. split; [reflexivity|]. split; [|split].
  - intros retry. eexists. apply load_holds; assumption.
  - intros k. rewrite store_all_lookup, lookup_empty.
    destruct (last_write cs k); reflexivity.
  - apply set_eq. intros k.
    rewrite elem_of_dom, store_all_lookup, lookup_empty, elem_of_list_to_set.
    rewrite <- last_write_dom. destruct (last_write cs k); reflexivity.
Qed.

Lemma roundtrip_last_write_wins_witness :
  ∃ j1 w1 m,
    write_all
      [ {| call_key := "a.jpg"; call_caption := None;
           call_status := "error_api" |};
        {| call_key := "b.jpg"; call_caption := Some "a dog";
           call_status := "success" |};
        {| call_key := "a.jpg"; call_caption := Some "a cat";
           call_status := "success" |} ]
      Journal.init {| disk := None; logged := [] |} = (Ok tt, j1, w1) ∧
    _file (Journal.close j1) = false ∧
    (∀ retry, ∃ j2, Journal.load retry Journal.init w1 = (Ok m, j2, w1)) ∧
    (∀ k, m !! k =
          last_write
            [ {| call_key := "a.jpg"; call_caption := None;
                 call_status := "error_api" |};
              {| call_key := "b.jpg"; call_caption := Some "a dog";
                 call_status := "success" |};
              {| call_key := "a.jpg"; call_caption := Some "a cat";
                 call_status := "success" |} ] k) ∧
    dom m = list_to_set (map call_key
            [ {| call_key := "a.jpg"; call_caption := None;
                 call_status := "error_api" |};
              {| call_key := "b.jpg"; call_caption := Some "a dog";
                 call_status := "success" |};
              {| call_key := "a.jpg"; call_caption := Some "a cat";
                 call_status := "success" |} ]).
Proof.
  apply roundtrip_last_write_wins; [left; reflexivity | reflexivity].
Defined.

(** X4.  Round trip on a journal that already holds records: the new
    calls are appended, a key that is written takes the record of its
    last call, every other key keeps the record the journal had for it. *)
Lemma roundtrip_on_existing_journal (cs : list call) (j0 : CaptionJournal)
      (w0 : world) (rs0 : list CaptionRecord) :
  forallb record_ok rs0 = true ->
  holds w0 rs0 ->
  forallb call_ok cs = true ->
  ∃ j1 w1 m,
    write_all cs j0 w0 = (Ok tt, j1, w1) ∧
    (∀ retry, ∃ j2, Journal.load retry Journal.init w1 = (Ok m, j2, w1)) ∧
    (∀ k, m !! k = match last_write cs k with
                   | Some e => Some e
                   | None => store_all rs0 ∅ !! k
                   end).
Proof.
  intros Hok0 Hh Hok.
  destruct (write_all_holds cs j0 w0 rs0 Hok Hh)
    as (j1 & w1 & E & Hh1 & _ & _ & _).
  assert (Hrs : forallb record_ok (rs0 ++ map record_of cs) = true).
  { rewrite forallb_app, Hok0. simpl.
    rewrite forallb_forall in Hok. apply forallb_forall.
    intros r Hr. apply in_map_iff in Hr as (c & <- & Hc). apply Hok, Hc. }
  exists j1, w1, (store_all (rs0 ++ map record_of cs) ∅).
  split; [exact E|]. split.
  - intros retry. eexists. apply load_holds; assumption.
  - intros k. rewrite store_all_app. apply store_all_lookup.
Qed.

(** C2.  Done set.  After [load(retry_statuses)] has returned the replayed
    dict, [is_done(key)] is true exactly when the dict has a record for
    the key whose status is not in the retry set; a key whose status is in
    the retry set is not done although its record exists. *)
Theorem is_done_after_load (retry : gset string) (j j' : CaptionJournal)
        (w w' : world) (m : gmap string entry) (k : string) :
  Journal.load retry j w = (Ok m, j', w') ->
  _records j' = m ∧
  (Journal.is_done j' k = true ↔
   ∃ e, m !! k = Some e ∧ entry_status e ∉ retry) ∧
  (∀ e, m !! k = Some e -> entry_status e ∈ retry ->
        Journal.is_done j' k = false).
Proof.
  intros H.
  assert (Hj : _records j' = m ∧ _done j' = Journal.done_of retry m).
  { unfold Journal.load in H.
    destruct (disk w) as [bytes|].
    - destruct (Utf8.decode bytes); [|congruence].
      destruct (Journal.replay _) as [[recs d]|]; [|congruence].
      injection H as <- <- _. split; reflexivity.
    - injection H as <- <- _. split; [reflexivity|].
      unfold Journal.done_of. simpl. rewrite map_filter_empty, dom_empty_L.
      reflexivity. }
  destruct Hj as [Hr Hd].
  assert (Hiff : Journal.is_done j' k = true ↔
                 ∃ e, m !! k = Some e ∧ entry_status e ∉ retry).
  { unfold Journal.is_done. rewrite bool_decide_eq_true, Hd.
    unfold Journal.done_of. rewrite elem_of_dom. split.
    - intros [e He]. apply map_lookup_filter_Some in He as [He Hp]. eauto.
    - intros (e & He & Hp). exists e. apply map_lookup_filter_Some. auto. }
  split; [exact Hr|]. split; [exact Hiff|].
  intros e He Hin. apply not_true_is_false. intros Hdone.
  apply Hiff in Hdone as (e' & He' & Hnot). congruence.
Qed.

Lemma is_done_after_load_witness :
  let w := {| disk := Some (journal_text
                 [ {| rel_path := "a.jpg"; caption := Some "cat";
                      status := "success" |};
                   {| rel_path := "b.jpg"; caption := None;
                      status := "error_api" |} ]);
              logged := [] |} in
  let '(r, j', _) := Journal.load {["error_api"]} Journal.init w in
  ∃ m, r = Ok m ∧ _records j' = m ∧
       (Journal.is_done j' "b.jpg" = true ↔
        ∃ e, m !! "b.jpg" = Some e ∧ entry_status e ∉ ({["error_api"]} : gset string)) ∧
       (∀ e, m !! "b.jpg" = Some e ->
             entry_status e ∈ ({["error_api"]} : gset string) ->
             Journal.is_done j' "b.jpg" = false).
Proof.
  cbv zeta.
  destruct (Journal.load _ _ _) as [[r j'] w'] eqn:E.
  assert (Hr : ∃ m, r = Ok m).
  { vm_compute in E. injection E as <- _ _. eauto. }
  destruct Hr as [m ->]. exists m. split; [reflexivity|].
  exact (is_done_after_load _ _ _ _ _ _ "b.jpg" E).
Defined.

(** C10.  A [write] whose status is outside the closed set raises the
    validation error before anything is touched: the file, the handle,
    the record dict, the done set and the log are as before the call. *)
Theorem write_rejects_unknown_status (rp : string) (cap : option string)
        (st : string) (j : CaptionJournal) (w : world) :
  st ∉ STATUSES ->
  Journal.write rp cap st j w = (Raise ValidationError, j, w).
Proof.
  intros H. unfold Journal.write, CaptionRecord_init, status_ok.
  rewrite bool_decide_eq_false_2 by exact H. reflexivity.
Qed.

Lemma write_rejects_unknown_status_witness :
  Journal.write "a.jpg" (Some "a cat") "done"
    {| _records := ∅; _done := {["z.jpg"]}; _file := false |}
    {| disk := Some "{}"; logged := [] |} =
  (Raise ValidationError,
   {| _records := ∅; _done := {["z.jpg"]}; _file := false |},
   {| disk := Some "{}"; logged := [] |}).
Proof.
  apply write_rejects_unknown_status.
  intros H. unfold STATUSES in H.
  repeat (apply elem_of_cons in H as [H|H]; [discriminate H|]).
  inversion H.
Defined.

(** C4, what holds.  When the bytes of the file decode, [load] does not
    raise whatever the lines are: the dict is built from the accepted
    lines in file order, a later line replacing an earlier one with the
    same key, and the other non-blank lines are counted and reported. *)
Lemma load_tolerates_malformed_lines (retry : gset string)
      (j : CaptionJournal) (w : world) (text : string) :
  disk w = Some text ->
  Utf8.valid text = true ->
  ∃ m j' w',
    Journal.load retry j w = (Ok m, j', w') ∧
    m = store_all (omap accepted (Text.file_lines text)) ∅ ∧
    disk w' = disk w ∧
    logged w' =
      (logged w ++
       if Nat.eqb (count_malformed (Text.file_lines text)) 0 then []
       else [LogDiscarded (count_malformed (Text.file_lines text))])%list.
Proof.
  intros Hd Hv. rewrite (load_text retry j w text Hd Hv).
  do 3 eexists. split; [reflexivity|]. split; [reflexivity|].
  destruct (Nat.eqb _ 0); simpl; [|auto].
  rewrite List.app_nil_r. auto.
Qed.

(** The test of [test_malformed_line_tolerance]: the middle line is
    dropped and counted, the two records around it are loaded. *)
Example load_skips_non_json :
  let text :=
    dumps_line "a.jpg" "ok" "success" ++ String "010"%char
      ("THIS IS NOT JSON" ++ String "010"%char
        (dumps_line "b.jpg" "ok2" "success" ++ String "010"%char "")) in
  Journal.load ∅ Journal.init {| disk := Some text; logged := [] |} =
  (Ok {[ "a.jpg" := {| entry_caption := Some "ok"; entry_status := "success" |};
         "b.jpg" := {| entry_caption := Some "ok2"; entry_status := "success" |} ]},
   {| _records :=
        {[ "a.jpg" := {| entry_caption := Some "ok"; entry_status := "success" |};
           "b.jpg" := {| entry_caption := Some "ok2"; entry_status := "success" |} ]};
      _done := {[ "a.jpg"; "b.jpg" ]};
      _file := false |},
   {| disk := Some text; logged := [LogDiscarded 1] |}).
Proof. vm_compute. reflexivity. Qed.

(** C4, where it fails.  A line cut inside a multi-byte character does
    not decode: the iteration over the file raises [UnicodeDecodeError],
    outside the [try] of the loop body, and [load] raises with it instead
    of returning the record of the intact first line. *)
Theorem load_raises_on_torn_character :
  (Journal.load ∅ Journal.init
     {| disk := Some torn_journal; logged := [] |}).1.1
  = Raise UnicodeDecodeError.
Proof. vm_compute. reflexivity. Qed.

(** Cut one byte earlier, the same file loads: the torn line is counted
    as discarded and the first record is returned. *)
Example load_survives_torn_ascii :
  let text :=
    journal_text [ {| rel_path := "a.jpg"; caption := Some "a cat";
                      status := "success" |} ]
    ++ torn_line in
  (Journal.load ∅ Journal.init {| disk := Some text; logged := [] |}).1.1 =
  Ok {[ "a.jpg" := {| entry_caption := Some "a cat";
                      entry_status := "success" |} ]}.
Proof. vm_compute. reflexivity. Qed.

(** *** Members the schema does not know *)

Lemma get_absent (name : string) (ms : list (string * Json.value)) :
  name ∉ map fst ms -> Json.get name ms = None.
Proof.
  induction ms as [|[k v] ms IH]; intros H; [reflexivity|].
  simpl in *. apply not_elem_of_cons in H as [Hne Hms].
  rewrite (IH Hms). destruct (String.eqb_spec k name); congruence.
Qed.

Lemma get_member (name : string) (v : Json.value)
      (ms : list (string * Json.value)) :
  NoDup (map fst ms) -> (name, v) ∈ ms -> Json.get name ms = Some v.
Proof.
  induction ms as [|[k u] ms IH]; intros Hnd Hin; [inversion Hin|].
  simpl in Hnd. apply NoDup_cons in Hnd as [Hk Hnd].
  apply elem_of_cons in Hin as [Heq|Hin]; simpl.
  - injection Heq as <- <-. rewrite (get_absent _ _ Hk).
    rewrite String.eqb_refl. reflexivity.
  - rewrite (IH Hnd Hin). reflexivity.
Qed.

Lemma validate_known_members (line : string) (ms : list (string * Json.value))
      (rp : string) (cap : option string) (st : string) :
  Json.parse line = Some (Json.JObj ms) ->
  NoDup (map fst ms) ->
  ("rel_path", Json.JStr rp) ∈ ms ->
  ("caption", caption_json cap) ∈ ms ->
  ("status", Json.JStr st) ∈ ms ->
  status_ok st = true ->
  model_validate_json line =
  Ok {| rel_path := rp; caption := cap; status := st |}.
Proof.
  intros Hp Hnd Hrp Hcap Hst Hok. unfold model_validate_json.
  rewrite Hp, (get_member _ _ _ Hnd Hrp), (get_member _ _ _ Hnd Hcap),
    (get_member _ _ _ Hnd Hst).
  unfold CaptionRecord_init.
  destruct cap; simpl; rewrite Hok; reflexivity.
Qed.

(** C8.  Forward compatibility.  A line of the journal whose text, once
    trimmed as the loader trims it, is a JSON object with distinct member
    names, among them [rel_path] (a string), [caption] (a string or null)
    and [status] (a string of the closed set), is accepted by [load]
    whatever other members it has: it is not counted as malformed, the
    returned dict has a record under its key, and that record is the one
    of this line unless a later line of the file is accepted for the same
    key. *)
Theorem load_ignores_unknown_members
        (retry : gset string) (j : CaptionJournal) (w : world)
        (text : string) (before after : list string) (line : string)
        (ms : list (string * Json.value))
        (rp : string) (cap : option string) (st : string) :
  disk w = Some text ->
  Utf8.valid text = true ->
  Text.file_lines text = (before ++ line :: after)%list ->
  Json.parse (Text.strip line) = Some (Json.JObj ms) ->
  NoDup (map fst ms) ->
  ("rel_path", Json.JStr rp) ∈ ms ->
  ("caption", caption_json cap) ∈ ms ->
  ("status", Json.JStr st) ∈ ms ->
  status_ok st = true ->
  malformed line = false ∧
  ∃ m j' w',
    Journal.load retry j w = (Ok m, j', w') ∧
    is_Some (m !! rp) ∧
    (Forall (λ l, ∀ r, accepted l = Some r -> rel_path r ≠ rp) after ->
     m !! rp = Some {| entry_caption := cap; entry_status := st |}).
Proof.
  intros Hd Hv Hl Hp Hnd Hrp Hcap Hst Hok.
  pose proof (validate_known_members _ _ _ _ _ Hp Hnd Hrp Hcap Hst Hok) as Hval.
  assert (Hne : String.eqb (Text.strip line) "" = false).
  { destruct (String.eqb_spec (Text.strip line) "") as [E|]; [|reflexivity].
    rewrite E in Hp. discriminate Hp. }
  assert (Hacc : accepted line =
                 Some {| rel_path := rp; caption := cap; status := st |}).
  { unfold accepted. rewrite Hne, Hval. reflexivity. }
  split.
  { unfold malformed. rewrite Hne, Hval. reflexivity. }
  rewrite (load_text retry j w text Hd Hv), Hl. cbv zeta.
  do 3 eexists. split; [reflexivity|].
  rewrite omap_app. cbn [omap list_omap]. rewrite Hacc.
  fold (omap accepted after).
  rewrite store_all_app.
  change (store_all (?r :: ?rs) ?m) with (store_all rs (store m r)).
  split.
  - apply store_all_keeps. unfold store. cbn [rel_path].
    rewrite lookup_insert_eq. eauto.
  - intros Hafter. rewrite store_all_other.
    + unfold store. cbn [rel_path]. rewrite lookup_insert_eq. reflexivity.
    + apply Forall_forall. intros r Hr.
      apply list_elem_of_omap in Hr as (l & Hin & Hl').
      rewrite Forall_forall in Hafter. exact (Hafter l Hin r Hl').
Qed.

Lemma load_ignores_unknown_members_witness :
  let first :=
    model_dump_json {| rel_path := "a.jpg"; caption := Some "a cat";
                       status := "success" |} in
  let line :=
    "  {" ++ quoted "model" ++ ": " ++ quoted "gpt-4o" ++ ", "
    ++ quoted "rel_path" ++ ": " ++ quoted "b.jpg" ++ ", "
    ++ quoted "tokens" ++ ": [12, 3.5e1], "
    ++ quoted "caption" ++ ": null, "
    ++ quoted "status" ++ ": " ++ quoted "error_api" ++ ", "
    ++ quoted "meta" ++ ": {" ++ quoted "v" ++ ": 2}} " in
  let after := ["not json"] in
  let text :=
    first ++ String "010"%char (line ++ String "010"%char "not json") in
  let w := {| disk := Some text; logged := [] |} in
  malformed line = false ∧
  ∃ m j' w',
    Journal.load ∅ Journal.init w = (Ok m, j', w') ∧
    is_Some (m !! "b.jpg") ∧
    (Forall (λ l, ∀ r, accepted l = Some r -> rel_path r ≠ "b.jpg") after ->
     m !! "b.jpg" =
     Some {| entry_caption := None; entry_status := "error_api" |}).
Proof.
  cbv zeta.
  eapply (load_ignores_unknown_members ∅ Journal.init _ _
           [model_dump_json {| rel_path := "a.jpg"; caption := Some "a cat";
                               status := "success" |}]
           ["not json"] _
           [("model", Json.JStr "gpt-4o"); ("rel_path", Json.JStr "b.jpg");
            ("tokens", Json.JArr [Json.JNum "12"; Json.JNum "3.5e1"]);
            ("caption", Json.JNull); ("status", Json.JStr "error_api");
            ("meta", Json.JObj [("v", Json.JNum "2")])]
           "b.jpg" None "error_api").
  - reflexivity.
  - vm_compute. reflexivity.
  - vm_compute. reflexivity.
  - vm_compute. reflexivity.
  - apply (bool_decide_unpack _). vm_compute. exact I.
  - rewrite !elem_of_cons. auto.
  - rewrite !elem_of_cons. auto 10.
  - rewrite !elem_of_cons. auto 10.
  - reflexivity.
Defined.

(** ** The dispatcher, item by item *)

Module DispatchFacts.
Import TextFacts Utf8Facts JsonFacts JournalFacts ReplayFacts.

Section Items.
Variable backend_name : string.
Variable caption_of : string -> result string.
Variable restart_every : Z.

#[local] Abbreviation process_one := (Caption.process_one backend_name caption_of).
#[local] Abbreviation record_for := (outcome_record backend_name caption_of).
#[local] Abbreviation log_for := (outcome_log backend_name caption_of).

Lemma fallback_status_ok :
  status_ok (Caption.fallback_status backend_name) = true.
Proof.
  unfold Caption.fallback_status.
  destruct (Text.contains "api" backend_name); reflexivity.
Qed.

Lemma record_for_status (it : item) :
  status_ok (status (record_for it)) = true.
Proof.
  unfold outcome_record.
  destruct (caption_of it.2) as [text|[]]; try reflexivity;
    apply fallback_status_ok.
Qed.

Lemma record_for_key (it : item) : rel_path (record_for it) = it.1.
Proof.
  unfold outcome_record. destruct (caption_of it.2) as [text|[]]; reflexivity.
Qed.

(** [process_one] never raises: it appends the record of the item's
    outcome and logs a warning when the item failed. *)
Lemma process_one_spec (it : item) (j : CaptionJournal) (w : world) :
  process_one it j w =
  (Ok tt, journal_after_write it.1 j,
   fold_left (λ w m, emit m w) (log_for it)
             (world_after_write (record_for it) w)).
Proof.
  unfold Caption.process_one, Caption.try_caption, Caption.record_failure,
    outcome_record, outcome_log.
  destruct (caption_of it.2) as [text|e].
  - rewrite write_accepts by reflexivity. reflexivity.
  - destruct e; rewrite write_accepts by
        (try reflexivity; apply fallback_status_ok); reflexivity.
Qed.

Lemma process_one_after (it : item) (j : CaptionJournal) (w : world) :
  process_one it j w =
  (Ok tt, (after_item backend_name caption_of (j, w) it).1,
   (after_item backend_name caption_of (j, w) it).2).
Proof. apply process_one_spec. Qed.

Lemma after_items_cons (it : item) (items : list item)
      (j : CaptionJournal) (w : world) :
  after_items backend_name caption_of (it :: items) j w =
  after_items backend_name caption_of items
    (after_item backend_name caption_of (j, w) it).1
    (after_item backend_name caption_of (j, w) it).2.
Proof. reflexivity. Qed.

Lemma after_items_app (xs ys : list item) (j : CaptionJournal) (w : world) :
  after_items backend_name caption_of (xs ++ ys) j w =
  after_items backend_name caption_of ys
    (after_items backend_name caption_of xs j w).1
    (after_items backend_name caption_of xs j w).2.
Proof.
  unfold after_items. rewrite fold_left_app.
  destruct (fold_left _ xs (j, w)); reflexivity.
Qed.

(** The sequential loop: the first [handled] items are processed, in
    order, and the counter says so. *)
Lemma sequential_spec (pending : list item) (p : Z)
      (j : CaptionJournal) (w : world) :
  let n := handled restart_every (length pending) p in
  Caption.sequential backend_name caption_of restart_every pending p j w =
  (Ok (p + Z.of_nat n),
   (after_items backend_name caption_of (take n pending) j w).1,
   (after_items backend_name caption_of (take n pending) j w).2).
Proof.
  revert p j w. induction pending as [|it rest IH]; intros p j w.
  - simpl. rewrite Z.add_0_r. reflexivity.
  - cbn [Caption.sequential length handled]. rewrite process_one_after.
    destruct (Caption.checkpoint_reached restart_every (p + 1)).
    + cbv zeta. cbn [take]. rewrite after_items_cons.
      replace (p + Z.of_nat 1) with (p + 1) by lia. reflexivity.
    + rewrite IH. cbv zeta. cbn [take]. rewrite after_items_cons.
      set (n := handled restart_every (length rest) (p + 1)).
      replace (p + Z.of_nat (S n)) with (p + 1 + Z.of_nat n) by lia.
      reflexivity.
Qed.

(** The pool: every submitted item is processed, none raises. *)
Lemma run_all_spec (items : list item) (j : CaptionJournal) (w : world) :
  Caption.run_all backend_name caption_of items j w =
  (None, (after_items backend_name caption_of items j w).1,
   (after_items backend_name caption_of items j w).2).
Proof.
  revert j w. induction items as [|it rest IH]; intros j w; [reflexivity|].
  cbn [Caption.run_all]. rewrite process_one_after, IH, after_items_cons.
  reflexivity.
Qed.

Lemma count_completed_spec (n : nat) (p : Z) :
  (Caption.count_completed restart_every n p).1 =
  p + Z.of_nat (handled restart_every n p).
Proof.
  revert p. induction n as [|n IH]; intros p.
  - simpl. lia.
  - cbn [Caption.count_completed handled].
    destruct (Caption.checkpoint_reached restart_every (p + 1)).
    + simpl. lia.
    + rewrite IH. lia.
Qed.

(** The closed form of [handled] on entry to a loop. *)
Lemma handled_from_zero (n : nat) :
  handled restart_every n 0 =
  if 0 <? restart_every then Nat.min (Z.to_nat restart_every) n else n.
Proof.
  assert (G : forall k p, 0 <= p ->
            handled restart_every k p =
            if 0 <? restart_every
            then (if restart_every <=? p then Nat.min 1 k
                  else Nat.min (Z.to_nat (restart_every - p)) k)
            else k).
  { induction k as [|k IH]; intros p Hp.
    - simpl. destruct (0 <? restart_every), (restart_every <=? p);
        try reflexivity; rewrite Nat.min_0_r; reflexivity.
    - cbn [handled]. unfold Caption.checkpoint_reached.
      destruct (Z.ltb_spec 0 restart_every) as [HR|HR]; cbn [andb].
      + destruct (Z.leb_spec restart_every (p + 1)) as [H1|H1].
        * destruct (Z.leb_spec restart_every p); [reflexivity|].
          replace (Z.to_nat (restart_every - p)) with 1%nat by lia.
          reflexivity.
        * rewrite IH by lia.
          destruct (Z.ltb_spec 0 restart_every); [|lia].
          destruct (Z.leb_spec restart_every (p + 1)); [lia|].
          destruct (Z.leb_spec restart_every p); [lia|].
          replace (Z.to_nat (restart_every - p))
            with (S (Z.to_nat (restart_every - (p + 1)))) by lia.
          reflexivity.
      + rewrite IH by lia.
        destruct (Z.ltb_spec 0 restart_every); [lia|]. reflexivity. }
  rewrite G by lia.
  destruct (Z.ltb_spec 0 restart_every) as [HR|HR]; [|reflexivity].
  destruct (Z.leb_spec restart_every 0); [lia|].
  rewrite Z.sub_0_r. reflexivity.
Qed.

(** *** What processing a list of items leaves behind *)

Lemma holds_emit (m : log_msg) (w : world) (rs : list CaptionRecord) :
  holds w rs -> holds (emit m w) rs.
Proof. intros H. exact H. Qed.

Lemma holds_emits (ms : list log_msg) (w : world) (rs : list CaptionRecord) :
  holds w rs -> holds (fold_left (λ w m, emit m w) ms w) rs.
Proof.
  revert w. induction ms as [|m ms IH]; intros w H; [exact H|].
  simpl. apply IH, holds_emit, H.
Qed.

Lemma disk_emits (ms : list log_msg) (w : world) :
  disk (fold_left (λ w m, emit m w) ms w) = disk w.
Proof.
  revert w. induction ms as [|m ms IH]; intros w; [reflexivity|].
  simpl. rewrite IH. reflexivity.
Qed.

Lemma logged_emits (ms : list log_msg) (w : world) :
  logged (fold_left (λ w m, emit m w) ms w) = (logged w ++ ms)%list.
Proof.
  revert w. induction ms as [|m ms IH]; intros w.
  - simpl. rewrite List.app_nil_r. reflexivity.
  - simpl. rewrite IH. simpl. rewrite <- List.app_assoc. reflexivity.
Qed.

Lemma after_items_holds (items : list item) (j : CaptionJournal)
      (w : world) (rs : list CaptionRecord) :
  holds w rs ->
  holds (after_items backend_name caption_of items j w).2
        (rs ++ map record_for items).
Proof.
  revert j w rs. induction items as [|it items IH]; intros j w rs H.
  - simpl. rewrite List.app_nil_r. exact H.
  - rewrite after_items_cons. cbn [List.map].
    replace (rs ++ record_for it :: map record_for items)%list
      with ((rs ++ [record_for it]) ++ map record_for items)%list
      by (rewrite <- List.app_assoc; reflexivity).
    apply IH. unfold after_item. cbn [fst snd].
    apply holds_emits, holds_append, H.
Qed.

Lemma after_items_done (items : list item) (j : CaptionJournal) (w : world) :
  _done (after_items backend_name caption_of items j w).1 =
  list_to_set (map fst items) ∪ _done j.
Proof.
  revert j w. induction items as [|it items IH]; intros j w.
  - simpl. set_solver.
  - rewrite after_items_cons, IH. unfold after_item. simpl. set_solver.
Qed.

Lemma after_items_logged (items : list item) (j : CaptionJournal) (w : world) :
  logged (after_items backend_name caption_of items j w).2 =
  (logged w ++ concat (map log_for items))%list.
Proof.
  revert j w. induction items as [|it items IH]; intros j w.
  - simpl. rewrite List.app_nil_r. reflexivity.
  - rewrite after_items_cons, IH. unfold after_item. cbn [fst snd].
    rewrite logged_emits. simpl. rewrite <- List.app_assoc. reflexivity.
Qed.

(** The world part does not depend on the journal object. *)
Lemma after_items_world (items : list item) (j j' : CaptionJournal)
      (w : world) :
  (after_items backend_name caption_of items j w).2 =
  (after_items backend_name caption_of items j' w).2.
Proof.
  revert j j' w. induction items as [|it items IH]; intros j j' w;
    [reflexivity|].
  rewrite !after_items_cons. unfold after_item. cbn [fst snd]. apply IH.
Qed.

Lemma records_for_ok (items : list item) :
  text_items items -> text_captions caption_of ->
  forallb record_ok (map record_for items) = true.
Proof.
  intros Hi Hc. apply forallb_forall. intros r Hr.
  apply in_map_iff in Hr as (it & <- & Hin).
  unfold text_items in Hi. rewrite Forall_forall in Hi.
  assert (Hk : is_text it.1 = true) by (apply Hi, list_elem_of_In, Hin).
  unfold record_ok, outcome_record.
  destruct (caption_of it.2) as [text|e] eqn:E.
  - simpl. rewrite Hk, (Hc _ _ E). reflexivity.
  - destruct e; simpl; rewrite Hk; try reflexivity;
      simpl; apply fallback_status_ok.
Qed.

Lemma records_for_keys (items : list item) :
  map rel_path (map record_for items) = map fst items.
Proof.
  induction items as [|it items IH]; [reflexivity|].
  simpl. rewrite record_for_key, IH. reflexivity.
Qed.

End Items.
End DispatchFacts.

(** ** The dispatcher, batch by batch *)

Module BatchFacts.
Import DispatchFacts.

Lemma batched_from_length {A : Type} (fuel : nat) (l : list A) (n : nat)
      (b : list A) :
  b ∈ Caption.batched_from fuel l n -> (0 < length b <= n)%nat.
Proof.
  revert l. induction fuel as [|fuel IH]; intros l H; [inversion H|].
  cbn [Caption.batched_from] in H.
  destruct (take n l) as [|x chunk] eqn:E; [inversion H|].
  apply elem_of_cons in H as [->|H]; [|exact (IH _ H)].
  rewrite <- E, length_take. simpl.
  assert (length (take n l) = S (length chunk)) by (rewrite E; reflexivity).
  rewrite length_take in H. lia.
Qed.

(** Every chunk of [_batched] has between one and [n] elements. *)
Lemma batched_length {A : Type} (l : list A) (n : nat) (b : list A) :
  b ∈ Caption._batched l n -> (0 < length b <= n)%nat.
Proof. apply batched_from_length. Qed.

Lemma batched_from_concat {A : Type} (fuel : nat) (l : list A) (n : nat) :
  (0 < n)%nat -> (length l <= fuel)%nat ->
  concat (Caption.batched_from fuel l n) = l.
Proof.
  intros Hn. revert l. induction fuel as [|fuel IH]; intros l Hl.
  - destruct l; [reflexivity|simpl in Hl; lia].
  - cbn [Caption.batched_from].
    destruct (take n l) as [|x chunk] eqn:E.
    + destruct l; [reflexivity|]. destruct n; [lia|discriminate E].
    + cbn [concat]. rewrite IH.
      * rewrite <- E. apply take_drop.
      * rewrite length_drop.
        assert (length (take n l) = S (length chunk)) by (rewrite E; reflexivity).
        rewrite length_take in H. lia.
Qed.

(** The chunks, put end to end, are the list. *)
Lemma batched_concat {A : Type} (l : list A) (n : nat) :
  (0 < n)%nat -> concat (Caption._batched l n) = l.
Proof. intros Hn. apply batched_from_concat; [exact Hn|lia]. Qed.

(** A backlog that fits the window is one batch. *)
Lemma batched_single {A : Type} (l : list A) (n : nat) :
  l <> [] -> (length l <= n)%nat -> Caption._batched l n = [l].
Proof.
  intros Hne Hl. unfold Caption._batched.
  destruct l as [|x l]; [congruence|].
  cbn [length Caption.batched_from].
  rewrite take_ge by exact Hl. rewrite drop_ge by exact Hl.
  destruct (length l); [reflexivity|].
  cbn [Caption.batched_from]. rewrite take_nil. reflexivity.
Qed.

Section Pool.
Variable backend_name : string.
Variable caption_of : string -> result string.
Variable restart_every : Z.
Variable completion_order : list item -> list item.

(** The pooled loop never raises; it runs a prefix of the batches, each
    of them to its end, and all of them when no checkpoint is set. *)
Lemma pooled_spec (batches : list (list item)) (done : bool) (p : Z)
      (j : CaptionJournal) (w : world) :
  ∃ (k : nat) (n : Z),
    let ran := concat (map completion_order (take k batches)) in
    Caption.pooled backend_name caption_of restart_every completion_order
                   batches done p j w =
    (Ok n, (after_items backend_name caption_of ran j w).1,
     (after_items backend_name caption_of ran j w).2) ∧
    (restart_every <= 0 -> done = false ->
     k = length batches ∧ n = p + Z.of_nat (length (concat batches))).
Proof.
  revert done p j w.
  induction batches as [|b batches IH]; intros done p j w.
  - exists 0%nat, p. split; [reflexivity|]. intros _ _. simpl. split; [reflexivity|lia].
  - cbn [Caption.pooled]. destruct done.
    + exists 0%nat, p. split; [reflexivity|]. intros _ H. discriminate H.
    + rewrite run_all_spec.
      destruct (Caption.count_completed restart_every (length b) p)
        as [p' done'] eqn:E.
      destruct (IH done' p'
                  (after_items backend_name caption_of (completion_order b) j w).1
                  (after_items backend_name caption_of (completion_order b) j w).2)
        as (k & n & Hrun & Hall).
      exists (S k), n. split.
      * cbv zeta in *. rewrite Hrun. cbn [take List.map concat].
        rewrite after_items_app. reflexivity.
      * intros HR _.
        assert (Hc : p' = p + Z.of_nat (length b) ∧ done' = false).
        { clear -E HR. revert p E. induction (length b) as [|m IHm]; intros p E.
          - simpl in E. injection E as <- <-. split; [lia|reflexivity].
          - cbn [Caption.count_completed] in E.
            unfold Caption.checkpoint_reached in E.
            destruct (Z.ltb_spec 0 restart_every); [lia|].
            cbn [andb] in E. apply IHm in E as [-> ->]. split; [lia|reflexivity]. }
        destruct Hc as [-> ->].
        destruct (Hall HR eq_refl) as [-> ->].
        cbn [length concat]. rewrite List.length_app. split; [reflexivity|lia].
Qed.

(** One batch: the whole batch is processed, the counter stops at the
    checkpoint. *)
Lemma pooled_single (b : list item) (p : Z) (j : CaptionJournal) (w : world) :
  Caption.pooled backend_name caption_of restart_every completion_order
                 [b] false p j w =
  (Ok (p + Z.of_nat (handled restart_every (length b) p)),
   (after_items backend_name caption_of (completion_order b) j w).1,
   (after_items backend_name caption_of (completion_order b) j w).2).
Proof.
  cbn [Caption.pooled]. rewrite run_all_spec.
  pose proof (count_completed_spec restart_every (length b) p) as H.
  destruct (Caption.count_completed restart_every (length b) p) as [p' d].
  simpl in H. subst p'. reflexivity.
Qed.

End Pool.
End BatchFacts.

(** ** The dispatcher: isolation and classification of failures *)

Import DispatchFacts BatchFacts.

Lemma after_items_disk (backend_name : string)
      (caption_of : string -> result string) (items : list item)
      (j : CaptionJournal) (w : world) :
  disk (after_items backend_name caption_of items j w).2 =
  append_records (disk w) (map (outcome_record backend_name caption_of) items).
Proof.
  revert j w. induction items as [|it items IH]; intros j w; [reflexivity|].
  rewrite after_items_cons, IH. unfold after_item. cbn [fst snd].
  rewrite disk_emits. reflexivity.
Qed.

Lemma fallback_status_error (backend_name : string) :
  Caption.fallback_status backend_name ∈ ERROR_STATUSES.
Proof.
  unfold Caption.fallback_status, ERROR_STATUSES.
  destruct (Text.contains "api" backend_name); rewrite !elem_of_cons; auto.
Qed.


(** C6.  Classification of a failure.  When processing an item raises,
    the status written is [error_corrupt] for the corrupt-input error; for
    any other exception it is [error_api] exactly when the supplied
    backend name contains ["api"], and [error_model] exactly when it does
    not.  The exception itself plays no part beyond that first test. *)
Theorem failure_classification
        (backend_name : string) (caption_of : string -> result string)
        (it : item) (j : CaptionJournal) (w : world) (e : exn) :
  caption_of it.2 = Raise e ->
  ∃ st,
    Caption.process_one backend_name caption_of it j w =
      (Ok tt, journal_after_write it.1 j,
       emit (LogItemWarning st it.1)
            (world_after_write
               {| rel_path := it.1; caption := None; status := st |} w)) ∧
    (e = CorruptImageError -> st = "error_corrupt") ∧
    (e ≠ CorruptImageError ->
     (st = "error_api" ↔ Text.contains "api" backend_name = true) ∧
     (st = "error_model" ↔ Text.contains "api" backend_name = false)).
Proof.
  intros He. rewrite process_one_spec. unfold outcome_record, outcome_log.
  rewrite He. destruct e.
  1: { exists "error_corrupt". split; [reflexivity|]. split; [auto|]. congruence. }
  all: exists (Caption.fallback_status backend_name);
    (split; [reflexivity|]); (split; [intros H; discriminate H|]); intros _;
    unfold Caption.fallback_status;
    destruct (Text.contains "api" backend_name);
    repeat split; intros H; try reflexivity; discriminate H.
Qed.

Lemma failure_classification_witness :
  ∃ st,
    Caption.process_one "openai_api"
      (λ _, Raise (OtherError "RateLimitError"))
      ("a.jpg", "/photos/a.jpg") Journal.init {| disk := None; logged := [] |} =
      (Ok tt, journal_after_write "a.jpg" Journal.init,
       emit (LogItemWarning st "a.jpg")
            (world_after_write
               {| rel_path := "a.jpg"; caption := None; status := st |}
               {| disk := None; logged := [] |})) ∧
    (OtherError "RateLimitError" = CorruptImageError -> st = "error_corrupt") ∧
    (OtherError "RateLimitError" ≠ CorruptImageError ->
     (st = "error_api" ↔ Text.contains "api" "openai_api" = true) ∧
     (st = "error_model" ↔ Text.contains "api" "openai_api" = false)).
Proof.
  apply (failure_classification "openai_api"
           (λ _, Raise (OtherError "RateLimitError"))
           ("a.jpg", "/photos/a.jpg")).
  reflexivity.
Defined.

(** None of the names [load_backend] accepts contains ["api"]: outside a
    dry run the last handler of [process_one] always writes
    [error_model]. *)
Lemma known_backends_lack_api (name : string) :
  load_backend name = Ok name -> Text.contains "api" name = false.
Proof.
  unfold load_backend. destruct (bool_decide_reflect (name ∈ BACKEND_NAMES)) as [H|H];
    [intros _|intros E; discriminate E].
  unfold BACKEND_NAMES in H.
  repeat (apply elem_of_cons in H as [->|H]; [reflexivity|]).
  inversion H.
Qed.

(** ** The pool as a transition system *)

Module PoolFacts.
Import DispatchFacts BatchFacts.

Section Steps.
Variable backend_name : string.
Variable caption_of : string -> result string.
Variable workers : nat.

#[local] Abbreviation step := (Caption.pool_step backend_name caption_of workers).

#[local] Abbreviation pool_inv :=
  (pool_inv backend_name caption_of workers).

Lemma pool_inv_submit (batch : list item) (j : CaptionJournal) (w : world) :
  pool_inv batch j w (Caption.submit batch j w).
Proof.
  unfold pool_inv, Caption.submit. simpl.
  split; [lia|]. split; reflexivity.
Qed.

Lemma pool_inv_step (batch : list item) (j : CaptionJournal) (w : world)
      (p p' : Caption.pool) :
  pool_inv batch j w p -> step p p' -> pool_inv batch j w p'.
Proof.
  intros (Hact & Hperm & Hjw) Hstep.
  destruct Hstep as [it q a f j0 w0 Hlt | it q a1 a2 f j0 w0 r j' w' Hp];
    unfold pool_inv in *; simpl in *.
  - split; [rewrite List.length_app; simpl; lia|].
    split; [|exact Hjw].
    rewrite <- Hperm. solve_Permutation.
  - split; [rewrite List.length_app in *; simpl in *; lia|].
    split.
    + rewrite <- Hperm. solve_Permutation.
    + unfold after_items in *. rewrite fold_left_app, <- Hjw. simpl.
      rewrite process_one_after in Hp. injection Hp as _ <- <-.
      reflexivity.
Qed.

Lemma pool_inv_reachable (batch : list item) (j : CaptionJournal)
      (w : world) (p : Caption.pool) :
  rtc step (Caption.submit batch j w) p -> pool_inv batch j w p.
Proof.
  revert p. apply rtc_ind_r.
  - apply pool_inv_submit.
  - intros p p' _ Hstep IH. exact (pool_inv_step _ _ _ _ _ IH Hstep).
Qed.

(** A pool that has not finished its batch can take a step, provided
    it has a worker at all. *)
Lemma pool_progress (p : Caption.pool) :
  (0 < workers)%nat ->
  (Caption.queue p ++ Caption.active p)%list <> [] ->
  ∃ p', step p p'.
Proof.
  intros Hw Hne. destruct p as [q a f j w]. simpl in Hne.
  destruct a as [|it a].
  - destruct q as [|it q]; [exfalso; apply Hne; reflexivity|].
    eexists. apply Caption.step_start. simpl. exact Hw.
  - destruct (Caption.process_one backend_name caption_of it j w)
      as [[r j'] w'] eqn:E.
    eexists. apply (Caption.step_finish _ _ _ it q [] a f j w r j' w' E).
Qed.

(** When the pool has come to rest, the finished calls are the batch
    in some order, and the journal is what processing them in that
    order leaves behind. *)
Lemma pool_final (batch : list item) (j : CaptionJournal) (w : world)
      (p : Caption.pool) :
  rtc step (Caption.submit batch j w) p ->
  Caption.queue p = [] -> Caption.active p = [] ->
  Caption.finished p ≡ₚ batch ∧
  (Caption.pool_journal p, Caption.pool_world p) =
  after_items backend_name caption_of (Caption.finished p) j w.
Proof.
  intros H Hq Ha. apply pool_inv_reachable in H as (_ & Hperm & Hjw).
  rewrite Hq, Ha, !List.app_nil_r in Hperm. split; assumption.
Qed.

End Steps.
End PoolFacts.

Import PoolFacts.



(** ** The run as a whole *)

Module RunFacts.
Import JournalFacts DispatchFacts BatchFacts.

Section Run.
Variable o : options.
Variable e : env.
Variable w : world.
Variable rs : list CaptionRecord.
Hypothesis Hready : ready o e w rs.

#[local] Abbreviation pending := (pending_of (loaded o rs) o (all_photos e)).

(** [run] up to its loop. *)
Lemma run_unfold :
  Caption.run o e w =
  match pending with
  | [] => (Exit 0, emit LogNothingToDo w)
  | _ =>
      match
        (if workers_of o <=? 1 then
           Caption.sequential (backend o) (caption_of e) (restart_every o)
                              pending 0 (loaded o rs) w
         else
           Caption.pooled (backend o) (caption_of e) (restart_every o)
                          (completion_order e)
                          (Caption._batched pending Caption.SUBMIT_BATCH)
                          false 0 (loaded o rs) w)
      with
      | (Raise x, _, w2) => (Crashed x, w2)
      | (Ok processed, _, w2) => report o pending processed w2
      end
  end.
Proof.
  destruct Hready as (Hdir & [b Hb] & Hforce & Hh & Hok).
  unfold Caption.run. rewrite Hdir, Hb, Hforce. cbn [negb].
  rewrite (load_holds _ Journal.init w rs Hok Hh).
  reflexivity.
Qed.

Lemma run_nothing_to_do :
  pending = [] -> Caption.run o e w = (Exit 0, emit LogNothingToDo w).
Proof. intros H. rewrite run_unfold, H. reflexivity. Qed.

(** The sequential path. *)
Lemma run_sequential :
  pending <> [] ->
  workers_of o <= 1 ->
  let n := handled (restart_every o) (length pending) 0 in
  Caption.run o e w =
  report o pending (Z.of_nat n)
    (after_items (backend o) (caption_of e) (take n pending)
                 (loaded o rs) w).2.
Proof.
  intros Hne Hw. rewrite run_unfold.
  destruct pending as [|it rest] eqn:E; [congruence|].
  rewrite (proj2 (Z.leb_le _ _) Hw), sequential_spec. reflexivity.
Qed.

(** The pooled path when the backlog fits the submission window: every
    pending item is processed, whatever the counter says. *)
Lemma run_pooled_single :
  pending <> [] ->
  1 < workers_of o ->
  (length pending <= Caption.SUBMIT_BATCH)%nat ->
  let n := handled (restart_every o) (length pending) 0 in
  Caption.run o e w =
  report o pending (Z.of_nat n)
    (after_items (backend o) (caption_of e) (completion_order e pending)
                 (loaded o rs) w).2.
Proof.
  intros Hne Hw Hlen. rewrite run_unfold.
  rewrite (batched_single _ _ Hne Hlen).
  destruct pending as [|it rest] eqn:E; [congruence|].
  rewrite (proj2 (Z.leb_gt _ _) Hw), pooled_single. reflexivity.
Qed.

End Run.
End RunFacts.

(** ** Which items are pending *)

Module PendingFacts.
Import JournalFacts ReplayFacts DispatchFacts BatchFacts RunFacts.

Lemma dom_store_all (rs : list CaptionRecord) (m : gmap string entry) :
  dom (store_all rs m) = list_to_set (map rel_path rs) ∪ dom m.
Proof.
  revert m. induction rs as [|r rs IH]; intros m.
  - simpl. set_solver.
  - change (store_all (r :: rs) m) with (store_all rs (store m r)).
    rewrite IH. unfold store. rewrite dom_insert_L. simpl. set_solver.
Qed.

Lemma done_of_no_retry (m : gmap string entry) :
  Journal.done_of ∅ m = dom m.
Proof.
  unfold Journal.done_of. f_equal. apply map_filter_id.
  intros k x _. simpl. set_solver.
Qed.

(** With no retry set, the done keys are the keys of the journal. *)
Lemma done_loaded (o : options) (rs : list CaptionRecord) :
  retry_status o = None ->
  _done (loaded o rs) = list_to_set (map rel_path rs).
Proof.
  intros H. unfold loaded. simpl. rewrite H. simpl.
  rewrite done_of_no_retry, dom_store_all, dom_empty_L. set_solver.
Qed.

Lemma is_done_loaded (o : options) (rs : list CaptionRecord) (k : string) :
  retry_status o = None ->
  Journal.is_done (loaded o rs) k = false ↔ k ∉ map rel_path rs.
Proof.
  intros H. unfold Journal.is_done. rewrite done_loaded by exact H.
  rewrite bool_decide_eq_false, elem_of_list_to_set. reflexivity.
Qed.

Lemma filter_all {A : Type} (P : A -> Prop) `{!∀ x, Decision (P x)}
      (l : list A) :
  Forall P l -> filter P l = l.
Proof.
  induction 1 as [|x l Hx _ IH]; [reflexivity|].
  rewrite filter_cons_True by exact Hx. rewrite IH. reflexivity.
Qed.

Lemma filter_none {A : Type} (P : A -> Prop) `{!∀ x, Decision (P x)}
      (l : list A) :
  Forall (λ x, ¬ P x) l -> filter P l = [].
Proof.
  induction 1 as [|x l Hx _ IH]; [reflexivity|].
  rewrite filter_cons_False by exact Hx. exact IH.
Qed.

(** When the journal holds records for the first [k] photos, in any
    order, and the keys of the photos are distinct, the pending list is
    the rest of the photos. *)
Lemma pending_drop (o : options) (rs : list CaptionRecord)
      (photos : list item) (k : nat) :
  retry_status o = None ->
  limit o <= 0 ->
  NoDup (map fst photos) ->
  (∀ x, x ∈ map rel_path rs ↔ x ∈ map fst (take k photos)) ->
  pending_of (loaded o rs) o photos = drop k photos.
Proof.
  intros Hretry Hlimit Hnd Hkeys. unfold pending_of.
  destruct (Z.ltb_spec 0 (limit o)) as [H|_]; [lia|].
  rewrite <- (take_drop k photos) at 1.
  rewrite <- (take_drop k photos), map_app in Hnd.
  apply NoDup_app in Hnd as (_ & Hdisj & _).
  rewrite filter_app, filter_none, filter_all; [reflexivity| |].
  - apply Forall_forall. intros it Hin.
    apply is_done_loaded; [exact Hretry|].
    rewrite Hkeys. intros Hk. apply (Hdisj it.1 Hk).
    apply list_elem_of_In, in_map, list_elem_of_In, Hin.
  - apply Forall_forall. intros it Hin Hdone.
    apply is_done_loaded in Hdone; [|exact Hretry].
    apply Hdone, Hkeys.
    apply list_elem_of_In, in_map, list_elem_of_In, Hin.
Qed.

End PendingFacts.

(** ** Checkpoints *)

Module CheckpointFacts.
Import JournalFacts ReplayFacts DispatchFacts BatchFacts RunFacts PendingFacts.

Section Steps.
Variable o : options.
Variable e : env.
Hypothesis Hdir : photos_dir_is_dir e = true.
Hypothesis Hbackend :
  ∃ b, load_backend (if dry_run o then "mock" else backend o) = Ok b.
Hypothesis Hforce : force o = false.
Hypothesis Hlimit : limit o <= 0.
Hypothesis Hretry : retry_status o = None.
Hypothesis Hnodup : NoDup (map fst (all_photos e)).
Hypothesis Hitems : text_items (all_photos e).
Hypothesis Hcaptions : text_captions (caption_of e).

#[local] Abbreviation photos := (all_photos e).
#[local] Abbreviation record_for := (outcome_record (backend o) (caption_of e)).

Lemma text_items_sub (l : list item) :
  (∀ it, it ∈ l -> it ∈ photos) -> text_items l.
Proof.
  intros H. unfold text_items in *. rewrite Forall_forall in *.
  intros it Hin. apply Hitems, H, Hin.
Qed.

(** The run is ready whenever the journal holds the records of some of
    the photos. *)
Lemma ready_records (w : world) (done : list item) :
  (∀ it, it ∈ done -> it ∈ photos) ->
  holds w (map record_for done) ->
  ready o e w (map record_for done).
Proof.
  intros Hsub Hh. unfold ready. repeat split; try assumption.
  apply records_for_ok; [apply text_items_sub, Hsub|exact Hcaptions].
Qed.

Lemma take_sub {A : Type} (k : nat) (l : list A) (x : A) :
  x ∈ take k l -> x ∈ l.
Proof. intros H. rewrite <- (take_drop k l). apply elem_of_app. left. exact H. Qed.

(** One sequential run on a journal that holds the first [k] photos. *)
Lemma sequential_run_step (w : world) (k : nat) :
  workers_of o <= 1 ->
  holds w (map record_for (take k photos)) ->
  (k < length photos)%nat ->
  let len := (length photos - k)%nat in
  let n := handled (restart_every o) len 0 in
  ∃ w',
    Caption.run o e w =
      report o (drop k photos) (Z.of_nat n) w' ∧
    holds w' (map record_for (take (k + n) photos)).
Proof.
  intros Hw Hh Hk len n.
  pose proof (ready_records w (take k photos) (take_sub k photos) Hh) as Hr.
  assert (Hp : pending_of (loaded o (map record_for (take k photos))) o photos
               = drop k photos).
  { apply pending_drop; try assumption.
    intros x. rewrite records_for_keys. reflexivity. }
  assert (Hne : drop k photos <> []).
  { intros E. apply (f_equal length) in E. rewrite length_drop in E.
    simpl in E. lia. }
  eexists. split.
  - rewrite (run_sequential o e w _ Hr) by (try rewrite Hp; assumption).
    rewrite Hp, length_drop. reflexivity.
  - rewrite <- take_take_drop, map_app. apply after_items_holds, Hh.
Qed.

(** A run on a journal that holds all the photos has nothing to do. *)
Lemma run_all_done (w : world) (done : list item) :
  done ≡ₚ photos ->
  holds w (map record_for done) ->
  Caption.run o e w = (Exit 0, emit LogNothingToDo w).
Proof.
  intros Hperm Hh.
  assert (Hr : ready o e w (map record_for done)).
  { apply ready_records; [|exact Hh]. intros it Hin. rewrite <- Hperm. exact Hin. }
  apply (run_nothing_to_do o e w _ Hr).
  rewrite (pending_drop o _ photos (length photos)); try assumption.
  - apply drop_all.
  - intros x. rewrite records_for_keys, take_ge by lia.
    rewrite !list_elem_of_In, !in_map_iff.
    split; intros (it & <- & Hin); exists it; (split; [reflexivity|]);
      apply list_elem_of_In; apply list_elem_of_In in Hin;
      [rewrite <- Hperm|rewrite Hperm]; exact Hin.
Qed.

(** One pooled run on a fresh journal when the photos fit the window:
    all of them are journaled, in completion order. *)
Lemma pooled_run_fresh (w : world) :
  1 < workers_of o ->
  holds w [] ->
  photos <> [] ->
  (length photos <= Caption.SUBMIT_BATCH)%nat ->
  ∃ w',
    Caption.run o e w =
      report o photos
             (Z.of_nat (handled (restart_every o) (length photos) 0)) w' ∧
    holds w' (map record_for (completion_order e photos)).
Proof.
  intros Hw Hh Hne Hlen.
  assert (Hr : ready o e w (map record_for [])).
  { apply ready_records; [intros it Hin; inversion Hin|exact Hh]. }
  assert (Hp : pending_of (loaded o (map record_for [])) o photos = photos).
  { rewrite (pending_drop o _ photos 0); try assumption; [reflexivity|].
    intros x. reflexivity. }
  eexists. split.
  - rewrite (run_pooled_single o e w _ Hr) by (try rewrite Hp; assumption).
    rewrite Hp. reflexivity.
  - apply (after_items_holds _ _ _ _ _ []), Hh.
Qed.

End Steps.
End CheckpointFacts.

Import RunFacts PendingFacts CheckpointFacts.

Lemma report_checkpoint (o : options) (pending : list item) (n : Z) (w : world) :
  0 < restart_every o -> n < Z.of_nat (length pending) ->
  report o pending n w =
  (Exit 2, emit (LogBatchDone n (Z.of_nat (length pending) - n)) w).
Proof.
  intros HR Hn. unfold report.
  rewrite (proj2 (Z.ltb_lt _ _) HR).
  rewrite (proj2 (Z.ltb_lt 0 (Z.of_nat (length pending) - n))) by lia.
  reflexivity.
Qed.

Lemma report_done (o : options) (pending : list item) (n : Z) (w : world) :
  n = Z.of_nat (length pending) ->
  report o pending n w = (Returned, emit (LogDone n) w).
Proof.
  intros ->. unfold report. rewrite Z.sub_diag, andb_false_r. reflexivity.
Qed.

(** C3, as the code has it.  Ten pending photos, threshold 4, a fresh
    journal.  On the sequential path a run journals the next four photos
    and exits with code 2 as long as more than four are pending: the
    first run leaves the first four in the journal and reports six
    remaining, the second run leaves eight and reports two remaining, and
    only the third run, with two photos left, journals them and returns.
    With a pool, the first run journals all ten photos, in completion
    order: the checkpoint stops the counting, not the workers. *)
Theorem checkpoint_semantics (o : options) (e : env) (w0 : world) :
  scenario o e ->
  holds w0 [] ->
  let record_for := outcome_record (backend o) (caption_of e) in
  (workers_of o <= 1 ->
   ∃ w1 w2 w3,
     Caption.run o e w0 = (Exit 2, emit (LogBatchDone 4 6) w1) ∧
     holds w1 (map record_for (take 4 (all_photos e))) ∧
     Caption.run o e (emit (LogBatchDone 4 6) w1) =
       (Exit 2, emit (LogBatchDone 4 2) w2) ∧
     holds w2 (map record_for (take 8 (all_photos e))) ∧
     Caption.run o e (emit (LogBatchDone 4 2) w2) =
       (Returned, emit (LogDone 2) w3) ∧
     holds w3 (map record_for (all_photos e))) ∧
  (1 < workers_of o ->
   ∃ w1,
     (Caption.run o e w0).2 = w1 ∧
     holds w1 (map record_for (completion_order e (all_photos e))) ∧
     completion_order e (all_photos e) ≡ₚ all_photos e).
Proof.
  intros (Hdir & Hb & Hforce & Hlimit & Hretry & HR & Hlen & Hnd & Hit & Hcap
          & Hperm) Hfresh record_for.
  assert (Hl : limit o <= 0) by lia.
  assert (HR0 : 0 < restart_every o) by lia.
  split.
  - intros Hw.
    destruct (sequential_run_step o e Hdir Hb Hforce Hl Hretry Hnd Hit Hcap
                w0 0 Hw Hfresh) as (w1 & H1 & Hh1); [lia|].
    rewrite HR, Hlen in H1. cbn [Nat.sub handled] in H1.
    change (handled 4 10 0) with 4%nat in H1. simpl (0 + 4)%nat in Hh1.
    rewrite report_checkpoint in H1
      by (rewrite ?length_drop, ?Hlen; simpl; lia).
    rewrite length_drop, Hlen in H1. simpl in H1.
    rewrite HR, Hlen in Hh1. change (handled 4 (10 - 0) 0) with 4%nat in Hh1.
    simpl (0 + 4)%nat in Hh1.
    destruct (sequential_run_step o e Hdir Hb Hforce Hl Hretry Hnd Hit Hcap
                (emit (LogBatchDone 4 6) w1) 4 Hw) as (w2 & H2 & Hh2);
      [apply holds_emit, Hh1|lia|].
    rewrite HR, Hlen in H2, Hh2.
    change (handled 4 (10 - 4) 0) with 4%nat in H2, Hh2.
    rewrite report_checkpoint in H2
      by (rewrite ?length_drop, ?Hlen; simpl; lia).
    rewrite length_drop, Hlen in H2. simpl in H2. simpl (4 + 4)%nat in Hh2.
    destruct (sequential_run_step o e Hdir Hb Hforce Hl Hretry Hnd Hit Hcap
                (emit (LogBatchDone 4 2) w2) 8 Hw) as (w3 & H3 & Hh3);
      [apply holds_emit, Hh2|lia|].
    rewrite HR, Hlen in H3, Hh3.
    change (handled 4 (10 - 8) 0) with 2%nat in H3, Hh3.
    rewrite report_done in H3 by (rewrite length_drop, Hlen; reflexivity).
    rewrite take_ge in Hh3 by lia.
    exists w1, w2, w3. repeat split; assumption.
  - intros Hw.
    destruct (pooled_run_fresh o e Hdir Hb Hforce Hl Hretry Hnd Hit Hcap
                w0 Hw Hfresh) as (w1 & H1 & Hh1).
    + intros E. rewrite E in Hlen. discriminate Hlen.
    + rewrite Hlen. unfold Caption.SUBMIT_BATCH. lia.
    + eexists. split; [reflexivity|]. split; [|apply Hperm].
      rewrite H1. unfold report.
      destruct (_ && _); apply holds_emit, Hh1.
Qed.

(** The scenario on the ten photos, by evaluation. *)
Ltac scenario_by_evaluation :=
  unfold scenario;
  repeat match goal with
         | |- _ ∧ _ => split
         | |- ∃ b, load_backend _ = Ok b => eexists; reflexivity
         | |- NoDup _ => apply (bool_decide_unpack _); vm_compute; exact I
         | |- text_items _ => repeat constructor
         | |- text_captions _ =>
             intros ? ? E; injection E as <-; reflexivity
         | |- ∀ b, _ ≡ₚ b => intros ?; reflexivity
         | |- _ = _ => reflexivity
         end.

Lemma checkpoint_semantics_witness :
  let o := checkpoint_options 1 in
  let record_for := outcome_record (backend o) (caption_of ten_env) in
  (workers_of o <= 1 ->
   ∃ w1 w2 w3,
     Caption.run o ten_env fresh_world = (Exit 2, emit (LogBatchDone 4 6) w1) ∧
     holds w1 (map record_for (take 4 (all_photos ten_env))) ∧
     Caption.run o ten_env (emit (LogBatchDone 4 6) w1) =
       (Exit 2, emit (LogBatchDone 4 2) w2) ∧
     holds w2 (map record_for (take 8 (all_photos ten_env))) ∧
     Caption.run o ten_env (emit (LogBatchDone 4 2) w2) =
       (Returned, emit (LogDone 2) w3) ∧
     holds w3 (map record_for (all_photos ten_env))) ∧
  (1 < workers_of o ->
   ∃ w1,
     (Caption.run o ten_env fresh_world).2 = w1 ∧
     holds w1 (map record_for (completion_order ten_env (all_photos ten_env))) ∧
     completion_order ten_env (all_photos ten_env) ≡ₚ all_photos ten_env).
Proof.
  apply (checkpoint_semantics (checkpoint_options 1) ten_env fresh_world).
  - scenario_by_evaluation.
  - right. split; reflexivity.
Defined.

(** C3, as the specification words it, does not hold: on the sequential
    path the second run, with six photos pending and the same threshold,
    stops after four and exits with code 2 again. *)
Lemma checkpoint_claim_fails : ¬ checkpoint_claim.
Proof.
  intros H.
  destruct (H (checkpoint_options 1) ten_env fresh_world)
    as (w1 & w2 & first & rest & H1 & _ & _ & H2 & _).
  - scenario_by_evaluation.
  - simpl. lia.
  - right. split; reflexivity.
  - vm_compute in H1. injection H1 as <-.
    vm_compute in H2. discriminate H2.
Qed.

(** With two workers the first run journals all ten photos and still
    exits with code 2, reporting six remaining; the next run finds
    nothing to do. *)
Example pool_run_journals_all_ten :
  let r1 := Caption.run (checkpoint_options 2) ten_env fresh_world in
  let r2 := Caption.run (checkpoint_options 2) ten_env r1.2 in
  r1.1 = Exit 2 ∧
  logged r1.2 = [LogBatchDone 4 6] ∧
  disk r1.2 =
    Some (journal_text
            (map (outcome_record "mock" (caption_of ten_env)) ten_photos)) ∧
  r2 = (Exit 0, emit LogNothingToDo r1.2).
Proof. vm_compute. repeat split. Qed.

(** ** Exit signalling *)


(** The two runs of the counterexample, side by side. *)
Example drained_and_idle_both_exit_zero :
  let r1 := Caption.run plain_options ten_env fresh_world in
  let r2 := Caption.run plain_options ten_env r1.2 in
  r1.1 = Returned ∧ end_state_of plain_options ten_env fresh_world = fully_drained ∧
  r2.1 = Exit 0 ∧ end_state_of plain_options ten_env r1.2 = nothing_to_do ∧
  exit_code r1.1 = 0 ∧ exit_code r2.1 = 0.
Proof. vm_compute. repeat split. Qed.

Module SignalFacts.
Import JournalFacts ReplayFacts DispatchFacts BatchFacts RunFacts PendingFacts
       CheckpointFacts.

Lemma NoDup_map_sublist {A B : Type} (f : A -> B) (l1 l2 : list A) :
  l1 `sublist_of` l2 -> NoDup (map f l2) -> NoDup (map f l1).
Proof.
  induction 1 as [|x l1 l2 Hsub IH|x l1 l2 Hsub IH]; intros Hnd.
  - constructor.
  - simpl in *. apply NoDup_cons in Hnd as [Hx Hnd].
    apply NoDup_cons. split; [|apply IH, Hnd].
    intros Hin. apply Hx.
    apply list_elem_of_In, in_map_iff in Hin as (y & Hy & Hin).
    apply list_elem_of_In, in_map_iff. exists y. split; [exact Hy|].
    apply list_elem_of_In. eapply sublist_subseteq; [exact Hsub|].
    apply list_elem_of_In, Hin.
  - simpl in Hnd. apply NoDup_cons in Hnd as [_ Hnd]. apply IH, Hnd.
Qed.

Lemma pending_sublist (j : CaptionJournal) (o : options) (photos : list item) :
  pending_of j o photos `sublist_of` photos.
Proof.
  unfold pending_of. destruct (0 <? limit o).
  - etrans; [apply sublist_take|apply sublist_filter].
  - apply sublist_filter.
Qed.

Lemma pending_not_done (j : CaptionJournal) (o : options)
      (photos : list item) (it : item) :
  it ∈ pending_of j o photos -> Journal.is_done j it.1 = false.
Proof.
  unfold pending_of. intros H.
  assert (Hf : it ∈ filter (λ it : item, Journal.is_done j it.1 = false) photos).
  { destruct (0 <? limit o); [|exact H].
    eapply sublist_subseteq; [apply sublist_take|exact H]. }
  apply list_elem_of_filter in Hf as [Hf _]. exact Hf.
Qed.

(** The keys a journal file has records for. *)
Lemma journal_keys_holds (w : world) (rs : list CaptionRecord) :
  forallb record_ok rs = true -> holds w rs ->
  journal_keys w = list_to_set (map rel_path rs).
Proof.
  intros Hok Hh. unfold journal_keys.
  rewrite (load_holds ∅ Journal.init w rs Hok Hh).
  rewrite dom_store_all, dom_empty_L. set_solver.
Qed.

Lemma handled_bounds (R : Z) (len : nat) :
  (0 < len)%nat ->
  let n := handled R len 0 in
  (0 < n <= len)%nat ∧ ((n < len)%nat -> 0 < R).
Proof.
  intros Hlen. cbv zeta. rewrite handled_from_zero.
  destruct (Z.ltb_spec 0 R); split; lia.
Qed.

End SignalFacts.

Import SignalFacts.




(** ** Counting with [Counter] *)

Module CounterFacts.

#[local] Abbreviation count_step :=
  (λ (counts : gmap string nat) (s : string),
     <[s := S (default O (counts !! s))]> counts).

Lemma occurrences_cons (s x : string) (l : list string) :
  occurrences s (x :: l) =
  ((if bool_decide (x = s) then 1 else 0) + occurrences s l)%nat.
Proof.
  unfold occurrences. rewrite filter_cons.
  case_bool_decide; destruct (decide (x = s)); try contradiction; reflexivity.
Qed.

Lemma counter_from_lookup (l : list string) (c : gmap string nat) (s : string) :
  default O (fold_left count_step l c !! s) =
  (default O (c !! s) + occurrences s l)%nat ∧
  (is_Some (fold_left count_step l c !! s) ↔ is_Some (c !! s) ∨ s ∈ l).
Proof.
  revert c. induction l as [|x l IH]; intros c.
  - simpl. unfold occurrences. simpl. split; [lia|].
    split; [auto|]. intros [H|H]; [exact H|]. inversion H.
  - cbn [fold_left]. destruct (IH (count_step c x)) as [IH1 IH2].
    rewrite IH1, IH2, occurrences_cons. clear IH IH1 IH2.
    destruct (decide (x = s)) as [->|Hne].
    + rewrite lookup_insert_eq, bool_decide_eq_true_2 by reflexivity.
      simpl. split; [lia|]. split; [intros _; right; left|].
      intros _. left. eauto.
    + rewrite lookup_insert_ne by exact Hne.
      rewrite bool_decide_eq_false_2 by exact Hne.
      split; [lia|]. rewrite elem_of_cons. split.
      * intros [H|H]; [left; exact H | right; right; exact H].
      * intros [H|[H|H]]; [left; exact H | congruence | right; exact H].
Qed.

(** A [Counter] has exactly the elements of the list as keys, each with
    the number of its occurrences. *)
Lemma Counter_lookup (l : list string) (s : string) :
  Counter l !! s =
  if bool_decide (s ∈ l) then Some (occurrences s l) else None.
Proof.
  destruct (counter_from_lookup l ∅ s) as [H1 H2].
  fold (Counter l) in H1, H2. rewrite lookup_empty in H1, H2. simpl in H1.
  case_bool_decide as Hin.
  - destruct (proj2 H2 (or_intror Hin)) as [n Hn].
    rewrite Hn in H1. simpl in H1. rewrite Hn, H1. reflexivity.
  - destruct (Counter l !! s) as [n|] eqn:E; [|reflexivity].
    destruct (proj1 H2 (ex_intro _ n eq_refl)) as [[? H]|H];
      [discriminate H | contradiction].
Qed.

Lemma sum_values_insert (c : gmap string nat) (s : string) (n : nat) :
  c !! s = None ->
  sum_values (<[s := n]> c) = sum_values c + Z.of_nat n.
Proof.
  intros H. unfold sum_values. rewrite map_fold_insert_L; [reflexivity| |exact H].
  intros. lia.
Qed.

Lemma sum_values_step (c : gmap string nat) (s : string) :
  sum_values (count_step c s) = sum_values c + 1.
Proof.
  cbv beta. destruct (c !! s) as [n|] eqn:E.
  - change (sum_values (<[s := S n]> c) = sum_values c + 1).
    rewrite <- (insert_delete_eq c s (S n)).
    rewrite sum_values_insert by apply lookup_delete_eq.
    rewrite <- (insert_delete_id c s n E) at 2.
    rewrite sum_values_insert by apply lookup_delete_eq. lia.
  - change (sum_values (<[s := 1%nat]> c) = sum_values c + 1).
    rewrite sum_values_insert by exact E. lia.
Qed.

Lemma sum_values_from (l : list string) (c : gmap string nat) :
  sum_values (fold_left count_step l c) = sum_values c + Z.of_nat (length l).
Proof.
  revert c. induction l as [|x l IH]; intros c.
  - simpl. lia.
  - cbn [fold_left]. rewrite IH, sum_values_step. simpl length. lia.
Qed.

(** The counts of a [Counter] add up to the length of the list. *)
Lemma sum_values_Counter (l : list string) :
  sum_values (Counter l) = Z.of_nat (length l).
Proof.
  unfold Counter. rewrite sum_values_from. unfold sum_values.
  rewrite map_fold_empty. lia.
Qed.

Lemma occurrences_map {A : Type} (f : A -> string) (s : string) (l : list A) :
  occurrences s (map f l) = length (filter (λ x, f x = s) l).
Proof.
  induction l as [|x l IH]; [reflexivity|].
  cbn [map]. rewrite occurrences_cons, filter_cons.
  case_bool_decide; destruct (decide (f x = s)); try contradiction;
    simpl; rewrite IH; reflexivity.
Qed.

Lemma occurrences_Permutation (s : string) (l l' : list string) :
  l ≡ₚ l' -> occurrences s l = occurrences s l'.
Proof. intros H. unfold occurrences. rewrite H. reflexivity. Qed.

Lemma size_filter_list {A : Type} (P : string * A -> Prop)
      `{!∀ x, Decision (P x)} (m : gmap string A) :
  size (filter P m) = length (filter P (map_to_list m)).
Proof.
  rewrite map_filter_alt, <- length_map_to_list.
  rewrite map_to_list_to_map; [reflexivity|].
  eapply sublist_NoDup; [apply (NoDup_fst_map_to_list m)|].
  apply fmap_sublist, sublist_filter.
Qed.

Lemma length_filter_complement {A : Type} (P : A -> Prop)
      `{!∀ x, Decision (P x)} (l : list A) :
  (length (filter P l) + length (filter (λ x, ¬ P x) l))%nat = length l.
Proof.
  rewrite <- List.length_app. rewrite (filter_app_complement P l). reflexivity.
Qed.

End CounterFacts.

(** ** More on the journal *)

Import TextFacts Utf8Facts JsonFacts JournalFacts ReplayFacts CounterFacts.

Lemma validate_status (line : string) (r : CaptionRecord) :
  model_validate_json line = Ok r -> status_ok (status r) = true.
Proof.
  unfold model_validate_json, CaptionRecord_init. intros H.
  repeat match type of H with
         | match ?x with _ => _ end = _ => destruct x eqn:?; try discriminate H
         | (if ?x then _ else _) = _ => destruct x eqn:?; try discriminate H
         end;
    injection H as <-; assumption.
Qed.

Lemma accepted_status (line : string) (r : CaptionRecord) :
  accepted line = Some r -> status_ok (status r) = true.
Proof.
  unfold accepted. destruct (String.eqb _ _); [discriminate|].
  destruct (model_validate_json _) as [r'|] eqn:E; [|discriminate].
  intros [= <-]. exact (validate_status _ _ E).
Qed.

Lemma store_all_status (rs : list CaptionRecord) (m : gmap string entry) :
  Forall (λ r, status_ok (status r) = true) rs ->
  map_Forall (λ _ e, status_ok (entry_status e) = true) m ->
  map_Forall (λ _ e, status_ok (entry_status e) = true) (store_all rs m).
Proof.
  revert m. induction rs as [|r rs IH]; intros m Hrs Hm; [exact Hm|].
  inversion Hrs as [|? ? Hr Hrs']; subst.
  change (store_all (r :: rs) m) with (store_all rs (store m r)).
  apply IH; [exact Hrs'|]. unfold store.
  apply map_Forall_insert_2; [exact Hr | exact Hm].
Qed.

(** X1.  The closed status set survives the file.  Whatever bytes the
    journal file holds, every entry of the dict that [load] returns has
    one of the four statuses of [CaptionRecord]: a line with any other
    status is discarded by validation. *)
Theorem load_statuses_closed (retry : gset string) (j j' : CaptionJournal)
        (w w' : world) (m : gmap string entry) (k : string) (e : entry) :
  Journal.load retry j w = (Ok m, j', w') ->
  m !! k = Some e ->
  entry_status e ∈ STATUSES.
Proof.
  intros H Hk. unfold Journal.load in H.
  destruct (disk w) as [bytes|].
  - destruct (Utf8.decode bytes) as [text|]; [|discriminate H].
    rewrite replay_total in H. injection H as <- _ _.
    assert (Hall : map_Forall (λ _ e, status_ok (entry_status e) = true)
                     (store_all (omap accepted (Text.file_lines text)) ∅)).
    { apply store_all_status; [|apply map_Forall_empty].
      apply Forall_forall. intros r Hr.
      apply list_elem_of_omap in Hr as (line & _ & Hline).
      exact (accepted_status _ _ Hline). }
    specialize (Hall k e Hk). simpl in Hall.
    unfold status_ok in Hall. apply bool_decide_eq_true in Hall. exact Hall.
  - injection H as <- _ _. rewrite lookup_empty in Hk. discriminate Hk.
Qed.

Lemma load_statuses_closed_witness :
  let text :=
    dumps_line "a.jpg" "a cat" "success" ++ String "010"%char
      (dumps_line "b.jpg" "a dog" "done" ++ String "010"%char "") in
  let w := {| disk := Some text; logged := [] |} in
  let e := {| entry_caption := Some "a cat"; entry_status := "success" |} in
  ∃ m j' w',
    Journal.load ∅ Journal.init w = (Ok m, j', w') ∧
    m !! "a.jpg" = Some e ∧
    m !! "b.jpg" = None ∧
    entry_status e ∈ STATUSES.
Proof.
  eexists _, _, _.
  split; [vm_compute; reflexivity|].
  split; [vm_compute; reflexivity|].
  split; [vm_compute; reflexivity|].
  eapply (load_statuses_closed ∅ Journal.init _
            {| disk := Some
                 (dumps_line "a.jpg" "a cat" "success" ++ String "010"%char
                    (dumps_line "b.jpg" "a dog" "done" ++ String "010"%char ""));
               logged := [] |} _ _ "a.jpg").
  - vm_compute. reflexivity.
  - vm_compute. reflexivity.
Defined.

(** X2.  [summary()] counts the loaded records.  The three numbers of
    the message are the number of entries of [_records], the number of
    those with status "success", and the number of those with any other
    status; in particular [errors] is never negative. *)
Theorem summary_counts (j : CaptionJournal) :
  Journal.summary j =
  (Z.of_nat (size (_records j)),
   Z.of_nat (size (filter (λ kv : string * entry,
                             entry_status kv.2 = "success") (_records j))),
   Z.of_nat (size (filter (λ kv : string * entry,
                             entry_status kv.2 ≠ "success") (_records j)))).
Proof.
  unfold Journal.summary.
  rewrite sum_values_Counter, length_map, length_map_to_list.
  pose proof (proj1 (counter_from_lookup
                       (map (λ kv : string * entry, entry_status kv.2)
                            (map_to_list (_records j))) ∅ "success")) as Hs.
  fold (Counter (map (λ kv : string * entry, entry_status kv.2)
                     (map_to_list (_records j)))) in Hs.
  rewrite lookup_empty in Hs. simpl in Hs. rewrite Hs.
  rewrite occurrences_map.
  rewrite !size_filter_list.
  pose proof (length_filter_complement
                (λ kv : string * entry, entry_status kv.2 = "success")
                (map_to_list (_records j))) as Hc.
  rewrite length_map_to_list in Hc.
  repeat f_equal. lia.
Qed.



Lemma roundtrip_on_existing_journal_witness :
  let rs0 := [ {| rel_path := "a.jpg"; caption := None;
                  status := "error_api" |};
               {| rel_path := "b.jpg"; caption := Some "a dog";
                  status := "success" |} ] in
  let cs := [ {| call_key := "a.jpg"; call_caption := Some "a cat";
                 call_status := "success" |} ] in
  let w0 := {| disk := Some (journal_text rs0); logged := [] |} in
  ∃ j1 w1 m,
    write_all cs Journal.init w0 = (Ok tt, j1, w1) ∧
    (∀ retry, ∃ j2, Journal.load retry Journal.init w1 = (Ok m, j2, w1)) ∧
    (∀ k, m !! k = match last_write cs k with
                   | Some e => Some e
                   | None => store_all rs0 ∅ !! k
                   end).
Proof.
  intros rs0 cs w0.
  apply (roundtrip_on_existing_journal cs Journal.init w0 rs0);
    [reflexivity | left; reflexivity | reflexivity].
Defined.

Lemma accepted_blank (line : string) :
  Text.strip line = "" -> accepted line = None ∧ malformed line = false.
Proof.
  intros H. unfold accepted, malformed. rewrite H. split; reflexivity.
Qed.

(** X5.  Blank lines are skipped, not discarded.  Two journal files whose
    lines differ by one line that [strip()] empties load alike: the same
    dict, the same done set and the same count of discarded lines in the
    log. *)
Theorem load_skips_blank_lines (retry : gset string) (j : CaptionJournal)
        (w w' : world) (text text' : string) (before after : list string)
        (blank : string) :
  disk w = Some text ->
  disk w' = Some text' ->
  Utf8.valid text = true ->
  Utf8.valid text' = true ->
  Text.file_lines text = (before ++ blank :: after)%list ->
  Text.file_lines text' = (before ++ after)%list ->
  Text.strip blank = "" ->
  logged w = logged w' ->
  (Journal.load retry j w).1 = (Journal.load retry j w').1 ∧
  logged (Journal.load retry j w).2 = logged (Journal.load retry j w').2.
Proof.
  intros Hd Hd' Hv Hv' Hl Hl' Hb Hlog.
  rewrite (load_text retry j w text Hd Hv).
  rewrite (load_text retry j w' text' Hd' Hv').
  cbv zeta. rewrite Hl, Hl'.
  destruct (accepted_blank blank Hb) as [Ha Hm].
  assert (E1 : omap accepted (before ++ blank :: after)%list =
               omap accepted (before ++ after)%list).
  { rewrite !omap_app. cbn [omap list_omap]. rewrite Ha. reflexivity. }
  assert (E2 : count_malformed (before ++ blank :: after)%list =
               count_malformed (before ++ after)%list).
  { unfold count_malformed. rewrite !List.filter_app. cbn [List.filter].
    rewrite Hm. reflexivity. }
  rewrite E1, E2. split; [reflexivity|].
  destruct (Nat.eqb _ 0); [exact Hlog|].
  unfold emit. simpl. rewrite Hlog. reflexivity.
Qed.

Lemma load_skips_blank_lines_witness :
  let r := {| rel_path := "a.jpg"; caption := Some "a cat";
              status := "success" |} in
  let text := journal_text [r] ++ String "009"%char (String "010"%char "not json") in
  let text' := journal_text [r] ++ "not json" in
  let w := {| disk := Some text; logged := [] |} in
  let w' := {| disk := Some text'; logged := [] |} in
  (Journal.load ∅ Journal.init w).1 = (Journal.load ∅ Journal.init w').1 ∧
  logged (Journal.load ∅ Journal.init w).2 =
  logged (Journal.load ∅ Journal.init w').2.
Proof.
  cbv zeta.
  eapply (load_skips_blank_lines ∅ Journal.init _ _ _ _
            [model_dump_json {| rel_path := "a.jpg"; caption := Some "a cat";
                                status := "success" |}]
            ["not json"] (String "009"%char ""));
    try reflexivity; vm_compute; reflexivity.
Defined.

(** X6.  [load] only reads.  The file is left as it was; the dict returned
    depends neither on what the journal object held before (the two
    containers are cleared first) nor on the retry set: a path whose
    status is to be retried is still in the dict, only its mark in the
    done set is withheld. *)
Theorem load_only_reads (retry retry' : gset string) (j j' : CaptionJournal)
        (w : world) :
  disk (Journal.load retry j w).2 = disk w ∧
  (Journal.load retry j w).1.1 = (Journal.load retry' j' w).1.1 ∧
  _records (Journal.load retry j w).1.2 =
    _records (Journal.load retry' j' w).1.2 ∧
  _done (Journal.load retry j w).1.2 = _done (Journal.load retry j' w).1.2 ∧
  (Journal.load retry j w).2 = (Journal.load retry' j' w).2.
Proof.
  unfold Journal.load.
  destruct (disk w) as [bytes|] eqn:Hd;
    [|cbn [fst snd]; rewrite ?Hd; repeat split].
  destruct (Utf8.decode bytes) as [text|];
    [|cbn [fst snd]; rewrite ?Hd; repeat split].
  rewrite replay_total.
  destruct (Nat.eqb _ 0); cbn [fst snd disk emit _records _done];
    rewrite ?Hd; repeat split.
Qed.

Import TextFacts Utf8Facts JsonFacts JournalFacts ReplayFacts CounterFacts.
Import DispatchFacts BatchFacts PoolFacts RunFacts PendingFacts CheckpointFacts SignalFacts.

(** ** Chunks of [_batched] *)

Module ChunkFacts.

Lemma take_empty_iff {A : Type} (n : nat) (l : list A) :
  take n l = [] ↔ n = 0%nat ∨ l = [].
Proof.
  destruct n, l; simpl; split; intros H; auto; try discriminate.
  - destruct H; discriminate.
Qed.

Lemma batched_from_lookup {A : Type} (fuel : nat) (l : list A) (n i : nat) :
  (length l <= fuel)%nat ->
  Caption.batched_from fuel l n !! i =
  if decide (0 < n ∧ i * n < length l)%nat
  then Some (take n (drop (i * n) l)) else None.
Proof.
  revert l i. induction fuel as [|k IH]; intros l i Hlen.
  - destruct l; [|simpl in Hlen; lia]. simpl.
    destruct (decide _) as [[_ H]|_]; [simpl in H; lia | reflexivity].
  - cbn [Caption.batched_from].
    destruct (take n l) as [|x chunk] eqn:E.
    + apply take_empty_iff in E.
      destruct (decide _) as [[H1 H2]|_]; [|reflexivity].
      destruct E as [->| ->]; [lia | simpl in H2; lia].
    + assert (Hn : (0 < n)%nat).
      { destruct n; [discriminate E | lia]. }
      assert (Hl : (0 < length l)%nat).
      { destruct l; [destruct n; discriminate E | simpl; lia]. }
      destruct i as [|i].
      * simpl. rewrite decide_True by (split; lia).
        rewrite <- E. reflexivity.
      * cbn [lookup list_lookup]. rewrite IH by (rewrite length_drop; lia).
        rewrite length_drop, drop_drop.
        replace (n + i * n)%nat with (S i * n)%nat by lia.
        destruct (decide (0 < n ∧ i * n < length l - n)%nat) as [H|H];
          [rewrite decide_True by lia | rewrite decide_False by lia];
          reflexivity.
Qed.

Lemma batched_from_take {A : Type} (fuel : nat) (l : list A) (n k : nat) :
  (0 < n)%nat -> (length l <= fuel)%nat ->
  concat (take k (Caption.batched_from fuel l n)) = take (k * n) l.
Proof.
  intros Hn. revert l k. induction fuel as [|f IH]; intros l k Hlen.
  - destruct l; [|simpl in Hlen; lia]. simpl.
    rewrite take_nil, take_nil. reflexivity.
  - cbn [Caption.batched_from].
    destruct (take n l) as [|x chunk] eqn:E.
    + apply take_empty_iff in E. destruct E as [->| ->]; [lia|].
      rewrite !take_nil. reflexivity.
    + destruct k as [|k]; [reflexivity|].
      cbn [take concat]. rewrite IH.
      * rewrite <- E.
        replace (S k * n)%nat with (n + k * n)%nat by lia.
        rewrite take_take_drop. reflexivity.
      * rewrite length_drop.
        assert (0 < length l)%nat
          by (destruct l; [destruct n; discriminate E | simpl; lia]).
        lia.
Qed.

Lemma batched_take {A : Type} (l : list A) (n k : nat) :
  (0 < n)%nat -> concat (take k (Caption._batched l n)) = take (k * n) l.
Proof. intros Hn. apply batched_from_take; [exact Hn | lia]. Qed.

Lemma concat_map_Permutation {A : Type} (f : list A -> list A)
      (bs : list (list A)) :
  (∀ b, f b ≡ₚ b) -> concat (map f bs) ≡ₚ concat bs.
Proof.
  intros Hf. induction bs as [|b bs IH]; [reflexivity|].
  simpl. rewrite Hf, IH. reflexivity.
Qed.

End ChunkFacts.

Import ChunkFacts.

(** X7.  The chunks of [_batched].  Chunk number [i] of [_batched(l, n)]
    is the slice [l[i*n : (i+1)*n]] as long as [i*n] is below the length
    of [l], and there is no further chunk; with [n = 0] there is no chunk
    at all. *)
Theorem batched_chunks {A : Type} (l : list A) (n i : nat) :
  Caption._batched l n !! i =
  if decide (0 < n ∧ i * n < length l)%nat
  then Some (take n (drop (i * n) l)) else None.
Proof. apply batched_from_lookup. lia. Qed.

(** ** The shape of every run *)

Module ShapeFacts.

Lemma run_as_run_from (o : options) (e : env) (w : world) :
  Caption.run o e w =
  if negb (photos_dir_is_dir e) then (Exit 1, w)
  else
    match load_backend (if dry_run o then "mock" else backend o) with
    | Raise x => (Crashed x, w)
    | Ok _ =>
        match (if force o then (Ok ∅, Journal.init, w)
               else Journal.load (Caption.retry_set (retry_status o))
                                 Journal.init w) with
        | (Raise x, _, w1) => (Crashed x, w1)
        | (Ok _, j, w1) => run_from o e j w1
        end
    end.
Proof.
  unfold Caption.run, run_from, pending_of, workers_of, report.
  destruct (negb _); [reflexivity|].
  destruct (load_backend _); [|reflexivity].
  destruct (if force o then _ else _) as [[[m|x] j] w1]; reflexivity.
Qed.

Lemma load_backend_cases (name : string) :
  (name ∈ BACKEND_NAMES ∧ load_backend name = Ok name) ∨
  ((name ∉ BACKEND_NAMES) ∧ load_backend name = Raise ValueError).
Proof.
  unfold load_backend. case_bool_decide; [left|right]; split; auto.
Qed.

(** What the loop of a run leaves behind: the items it has processed are,
    up to the completion order, a prefix of the pending list. *)
Lemma run_from_shape (o : options) (e : env) (j : CaptionJournal) (w : world) :
  let pending := pending_of j o (all_photos e) in
  ∃ (items : list item) (n : nat) (out : outcome) (msg : log_msg),
    run_from o e j w =
      (out, emit msg (after_items (backend o) (caption_of e) items j w).2) ∧
    ((∀ b, completion_order e b ≡ₚ b) -> items ≡ₚ take n pending) ∧
    (workers_of o <= 1 -> items = take n pending) ∧
    (∀ x, out ≠ Crashed x) ∧
    (pending = [] -> items = [] ∧ out = Exit 0 ∧ msg = LogNothingToDo) ∧
    (restart_every o <= 0 -> pending ≠ [] ->
     (length pending <= n)%nat ∧ out = Returned ∧
     msg = LogDone (Z.of_nat (length pending))).
Proof.
  intros pending. unfold run_from. fold pending.
  clearbody pending.
  destruct (decide (pending = [])) as [He|Hne].
  { rewrite He. exists [], 0%nat, (Exit 0), LogNothingToDo.
    repeat split; try discriminate; try reflexivity; congruence. }
  assert (Hreport : ∀ (p : Z) (w2 : world),
             ∃ out msg, report o pending p w2 = (out, emit msg w2) ∧
               (∀ x, out ≠ Crashed x) ∧
               (restart_every o <= 0 -> p = Z.of_nat (length pending) ->
                out = Returned ∧ msg = LogDone (Z.of_nat (length pending)))).
  { intros p w2. unfold report.
    destruct ((0 <? restart_every o) && _) eqn:Eb.
    - eexists _, _. split; [reflexivity|]. split; [discriminate|].
      intros HR _. apply andb_true_iff in Eb as [Eb _].
      apply Z.ltb_lt in Eb. lia.
    - eexists _, _. split; [reflexivity|]. split; [discriminate|].
      intros _ ->. split; reflexivity. }
  destruct pending as [|it rest] eqn:Ep; [congruence|].
  rewrite <- Ep in *. clear it rest Ep.
  destruct (workers_of o <=? 1) eqn:Ew.
  - rewrite sequential_spec.
    set (n := handled (restart_every o) (length pending) 0).
    destruct (Hreport (0 + Z.of_nat n)
                (after_items (backend o) (caption_of e) (take n pending) j w).2)
      as (out & msg & Hr & Hout & Hdone).
    exists (take n pending), n, out, msg.
    split; [exact Hr|]. split; [reflexivity|]. split; [reflexivity|].
    split; [exact Hout|]. split; [intros H; contradiction|].
    intros HR _.
    assert (Hn : n = length pending).
    { subst n. rewrite handled_from_zero.
      rewrite (proj2 (Z.ltb_ge _ _) HR). reflexivity. }
    split; [lia|]. apply Hdone; [exact HR | lia].
  - destruct (pooled_spec (backend o) (caption_of e) (restart_every o)
                (completion_order e)
                (Caption._batched pending Caption.SUBMIT_BATCH) false 0 j w)
      as (k & p & Hrun & Hall).
    cbv zeta in Hrun. rewrite Hrun.
    set (ran := concat (map (completion_order e)
                  (take k (Caption._batched pending Caption.SUBMIT_BATCH)))) in *.
    destruct (Hreport p (after_items (backend o) (caption_of e) ran j w).2)
      as (out & msg & Hr & Hout & Hdone).
    exists ran, (k * Caption.SUBMIT_BATCH)%nat, out, msg.
    split; [exact Hr|]. split.
    { intros Hperm. subst ran.
      rewrite concat_map_Permutation by exact Hperm.
      rewrite batched_take by (unfold Caption.SUBMIT_BATCH; lia). reflexivity. }
    split; [intros H; apply Z.leb_gt in Ew; lia|].
    split; [exact Hout|]. split; [intros H; contradiction|].
    intros HR _. destruct (Hall HR eq_refl) as [Hk Hp].
    rewrite batched_concat in Hp by (unfold Caption.SUBMIT_BATCH; lia).
    split; [|apply Hdone; [exact HR | lia]].
    assert (Hc : concat (take k (Caption._batched pending Caption.SUBMIT_BATCH))
                 = pending).
    { rewrite Hk, firstn_all.
      apply batched_concat. unfold Caption.SUBMIT_BATCH. lia. }
    rewrite batched_take in Hc by (unfold Caption.SUBMIT_BATCH; lia).
    rewrite <- Hc at 1. rewrite length_take. lia.
Qed.

End ShapeFacts.

Import ShapeFacts.

(** What [run] has in hand when it reaches its loop. *)
Lemma run_setup_cases (o : options) (w : world) :
  (∃ x, (if force o then (Ok ∅, Journal.init, w)
         else Journal.load (Caption.retry_set (retry_status o))
                           Journal.init w) = (Raise x, Journal.init, w) ∧
        x = UnicodeDecodeError ∧ force o = false ∧
        ∃ bytes, disk w = Some bytes ∧ Utf8.valid bytes = false) ∨
  (∃ m j w1, (if force o then (Ok ∅, Journal.init, w)
              else Journal.load (Caption.retry_set (retry_status o))
                                Journal.init w) = (Ok m, j, w1) ∧
             disk w1 = disk w ∧
             (force o = false ->
              ∀ bytes, disk w = Some bytes -> Utf8.valid bytes = true)).
Proof.
  destruct (force o) eqn:Ef.
  { right. exists ∅, Journal.init, w. repeat split. discriminate. }
  unfold Journal.load, Utf8.decode.
  destruct (disk w) as [bytes|] eqn:Hd.
  - destruct (Utf8.valid bytes) eqn:Hv.
    + right. rewrite replay_total. eexists _, _, _.
      split; [reflexivity|]. split.
      * destruct (Nat.eqb _ 0); [exact Hd|]. cbn [emit disk]. exact Hd.
      * intros _ b [= <-]. exact Hv.
    + left. exists UnicodeDecodeError. repeat split. exists bytes. auto.
  - right. eexists _, _, _. split; [reflexivity|]. split; [exact Hd|].
    intros _ b H. discriminate H.
Qed.



Import TextFacts Utf8Facts JsonFacts JournalFacts ReplayFacts CounterFacts.
Import DispatchFacts BatchFacts PoolFacts RunFacts PendingFacts CheckpointFacts SignalFacts.
Import ChunkFacts ShapeFacts.

Lemma pending_of_length (j : CaptionJournal) (o : options) (photos : list item) :
  0 < limit o ->
  Z.of_nat (length (pending_of j o photos)) <= limit o.
Proof.
  intros H. unfold pending_of. rewrite (proj2 (Z.ltb_lt _ _) H).
  rewrite length_take. lia.
Qed.

(** X9.  A run only appends.  Whatever the options and whatever the file
    holds, the journal file after [run] is the file before it followed by
    the lines of the items the run has processed, one line each; these
    items are photos of the directory, none taken twice, and with
    [--limit n] there are at most [n] of them.  (The futures of a batch
    complete in some order of the batch.) *)
Theorem run_appends_only (o : options) (e : env) (w : world) :
  (∀ b, completion_order e b ≡ₚ b) ->
  ∃ items : list item,
    disk (Caption.run o e w).2 =
      append_records (disk w)
        (map (outcome_record (backend o) (caption_of e)) items) ∧
    items ⊆+ all_photos e ∧
    (0 < limit o -> Z.of_nat (length items) <= limit o).
Proof.
  intros Hperm. rewrite run_as_run_from.
  assert (Hnil : ∀ out,
             ∃ items : list item,
               disk ((out, w) : outcome * world).2 =
                 append_records (disk w)
                   (map (outcome_record (backend o) (caption_of e)) items) ∧
               items ⊆+ all_photos e ∧
               (0 < limit o -> Z.of_nat (length items) <= limit o)).
  { intros out. exists []. split; [reflexivity|].
    split; [apply submseteq_nil_l | simpl; lia]. }
  destruct (negb _); [apply Hnil|].
  destruct (load_backend _); [|apply Hnil].
  destruct (run_setup_cases o w)
    as [(y & -> & _)|(m & j & w1 & -> & Hd & _)]; [apply Hnil|].
  destruct (run_from_shape o e j w1)
    as (items & n & out & msg & Hr & Hitems & _).
  specialize (Hitems Hperm).
  exists items. rewrite Hr. cbn [snd emit disk].
  rewrite after_items_disk, Hd. split; [reflexivity|]. split.
  - rewrite Hitems. apply sublist_submseteq.
    transitivity (pending_of j o (all_photos e));
      [apply sublist_take | apply pending_sublist].
  - intros Hl. rewrite Hitems, length_take.
    pose proof (pending_of_length j o (all_photos e) Hl). lia.
Qed.

Lemma run_appends_only_witness :
  ∃ items : list item,
    disk (Caption.run (checkpoint_options 2) ten_env fresh_world).2 =
      append_records (disk fresh_world)
        (map (outcome_record "mock" (caption_of ten_env)) items) ∧
    items ⊆+ all_photos ten_env ∧
    (0 < limit (checkpoint_options 2) ->
     Z.of_nat (length items) <= limit (checkpoint_options 2)).
Proof.
  apply (run_appends_only (checkpoint_options 2) ten_env fresh_world).
  intros b. reflexivity.
Defined.

Lemma pending_of_init (o : options) (photos : list item) :
  limit o <= 0 -> pending_of Journal.init o photos = photos.
Proof.
  intros H. unfold pending_of. rewrite (proj2 (Z.ltb_ge _ _) H).
  apply filter_all, Forall_forall. intros it _.
  unfold Journal.is_done. cbn [_done Journal.init].
  apply bool_decide_eq_false. set_solver.
Qed.



Lemma done_of_dom (retry : gset string) (m : gmap string entry) :
  Journal.done_of retry m ⊆ dom m.
Proof. unfold Journal.done_of. apply dom_filter_subseteq. Qed.

(** The journal object of a run whose file holds the records [rs]: its
    done set names keys of [rs] only, and loading logs nothing. *)
Lemma run_setup_holds (o : options) (w : world) (rs : list CaptionRecord) :
  holds w rs ->
  forallb record_ok rs = true ->
  ∃ m j,
    (if force o then (Ok ∅, Journal.init, w)
     else Journal.load (Caption.retry_set (retry_status o)) Journal.init w)
    = (Ok m, j, w) ∧
    _done j ⊆ list_to_set (map rel_path rs).
Proof.
  intros Hh Hok. destruct (force o).
  - exists ∅, Journal.init. split; [reflexivity|]. cbn. set_solver.
  - rewrite (load_holds _ Journal.init w rs Hok Hh).
    eexists _, _. split; [reflexivity|]. cbn [_done].
    etransitivity; [apply done_of_dom|].
    rewrite dom_store_all, dom_empty_L. set_solver.
Qed.



Import TextFacts Utf8Facts JsonFacts JournalFacts ReplayFacts CounterFacts.
Import DispatchFacts BatchFacts PoolFacts RunFacts PendingFacts CheckpointFacts SignalFacts.
Import ChunkFacts ShapeFacts.

Lemma not_done_iff (retry : gset string) (m : gmap string entry) (k : string) :
  k ∉ Journal.done_of retry m ↔
  ∀ en, m !! k = Some en -> entry_status en ∈ retry.
Proof.
  unfold Journal.done_of. rewrite elem_of_dom. split.
  - intros H en Hen. destruct (decide (entry_status en ∈ retry)) as [|Hn]; [assumption|].
    exfalso. apply H. exists en. apply map_lookup_filter_Some. split; assumption.
  - intros H [en Hen]. apply map_lookup_filter_Some in Hen as [Hen Hn].
    apply Hn, (H en Hen).
Qed.

(** X12.  Which photos a run takes.  On a well-formed journal, with no
    limit and no checkpoint, a run processes exactly the photos of the
    directory that have no record in the journal or whose last record
    carries a status named in [--retry-status]; every other photo is left
    alone. *)
Theorem run_processes_exactly (o : options) (e : env) (w : world)
        (rs : list CaptionRecord) :
  ready o e w rs ->
  limit o <= 0 ->
  restart_every o <= 0 ->
  (∀ b, completion_order e b ≡ₚ b) ->
  ∃ items : list item,
    disk (Caption.run o e w).2 =
      append_records (disk w)
        (map (outcome_record (backend o) (caption_of e)) items) ∧
    items ⊆+ all_photos e ∧
    ∀ it, it ∈ items ↔
          it ∈ all_photos e ∧
          ∀ en, store_all rs ∅ !! it.1 = Some en ->
                entry_status en ∈ Caption.retry_set (retry_status o).
Proof.
  intros (Hdir & [b Hb] & Hforce & Hh & Hok) Hl HR Hperm.
  rewrite run_as_run_from, Hdir, Hb, Hforce. cbn [negb].
  rewrite (load_holds _ Journal.init w rs Hok Hh).
  set (j := {| _records := store_all rs ∅;
               _done := Journal.done_of (Caption.retry_set (retry_status o))
                                        (store_all rs ∅);
               _file := _file Journal.init |}).
  destruct (run_from_shape o e j w)
    as (items & n & out & msg & Hr & Hitems & _ & _ & Hnone & Hall).
  specialize (Hitems Hperm).
  assert (Hpend : items ≡ₚ pending_of j o (all_photos e)).
  { destruct (decide (pending_of j o (all_photos e) = [])) as [E|E].
    - destruct (Hnone E) as (-> & _). rewrite E. reflexivity.
    - destruct (Hall HR E) as (Hn & _).
      rewrite Hitems, take_ge by exact Hn. reflexivity. }
  exists items. rewrite Hr. cbn [snd emit disk].
  split; [apply after_items_disk|]. split.
  - rewrite Hpend. apply sublist_submseteq, pending_sublist.
  - intros it. rewrite Hpend. unfold pending_of.
    rewrite (proj2 (Z.ltb_ge _ _) Hl), list_elem_of_filter.
    unfold Journal.is_done. cbn [_done j].
    rewrite bool_decide_eq_false, not_done_iff. tauto.
Qed.

Lemma run_processes_exactly_witness :
  let o := {| backend := "openai"; max_workers := 1; limit := 0;
              restart_every := 0; retry_status := Some "error_api";
              force := false; dry_run := false |} in
  let rs := [ {| rel_path := "p0.jpg"; caption := None;
                 status := "error_api" |};
              {| rel_path := "p1.jpg"; caption := None;
                 status := "error_corrupt" |} ] in
  let w := {| disk := Some (journal_text rs); logged := [] |} in
  ∃ items : list item,
    disk (Caption.run o ten_env w).2 =
      append_records (disk w)
        (map (outcome_record (backend o) (caption_of ten_env)) items) ∧
    items ⊆+ all_photos ten_env ∧
    ∀ it, it ∈ items ↔
          it ∈ all_photos ten_env ∧
          ∀ en, store_all rs ∅ !! it.1 = Some en ->
                entry_status en ∈ Caption.retry_set (retry_status o).
Proof.
  intros o rs w.
  apply (run_processes_exactly o ten_env w rs).
  - split; [reflexivity|]. split; [exists "openai"; reflexivity|].
    split; [reflexivity|]. split; [left; reflexivity | reflexivity].
  - simpl. lia.
  - simpl. lia.
  - intros b. reflexivity.
Defined.

(** X13.  The local backend runs sequentially.  With backend "local" the
    worker count is clamped to one: the run is the same for every
    [--max-workers] and does not depend on any completion order. *)
Theorem local_backend_is_sequential (o : options) (e : env) (w : world)
        (n : Z) (order : list item -> list item) :
  backend o = "local" ->
  Caption.run (with_workers o n) (with_order e order) w =
  Caption.run (with_workers o 1) e w.
Proof.
  intros Hb. unfold Caption.run, with_workers, with_order.
  cbn [photos_dir_is_dir all_photos caption_of completion_order
       backend max_workers limit restart_every retry_status force dry_run].
  rewrite Hb. cbn [String.eqb Ascii.eqb Bool.eqb andb].
  change (1 <? 1) with false. cbv iota.
  assert (Hn : ((if 1 <? n then 1 else n) <=? 1) = true).
  { apply Z.leb_le. destruct (1 <? n) eqn:E; [lia|]. apply Z.ltb_ge in E. lia. }
  rewrite Hn. change (1 <=? 1) with true. reflexivity.
Qed.

Lemma local_backend_is_sequential_witness :
  let o := {| backend := "local"; max_workers := 8; limit := 0;
              restart_every := 4; retry_status := None;
              force := false; dry_run := false |} in
  Caption.run (with_workers o 8) (with_order ten_env (@rev item)) fresh_world =
  Caption.run (with_workers o 1) ten_env fresh_world.
Proof.
  intros o. apply (local_backend_is_sequential o ten_env fresh_world 8).
  reflexivity.
Defined.

(** ** The pool comes to rest *)

Module RestFacts.

Section Steps.
Variable backend_name : string.
Variable captioner : string -> result string.
Variable workers : nat.

#[local] Abbreviation step := (Caption.pool_step backend_name captioner workers).

(** Every step starts or ends one call. *)
Lemma step_measure (p p' : Caption.pool) :
  step p p' ->
  (2 * length (Caption.finished p') + length (Caption.active p') =
   S (2 * length (Caption.finished p) + length (Caption.active p)))%nat.
Proof.
  intros [it q a f j w Hlt | it q a1 a2 f j w r j' w' Hp]; simpl;
    rewrite ?List.length_app; simpl; lia.
Qed.

Lemma nsteps_measure (n : nat) (p p' : Caption.pool) :
  nsteps step n p p' ->
  (2 * length (Caption.finished p') + length (Caption.active p') =
   n + (2 * length (Caption.finished p) + length (Caption.active p)))%nat.
Proof.
  induction 1 as [p | n p p1 p2 Hstep _ IH]; [reflexivity|].
  rewrite IH, (step_measure _ _ Hstep). lia.
Qed.

Lemma rest_is_final (p : Caption.pool) :
  (0 < workers)%nat ->
  (∀ p', ¬ step p p') ->
  Caption.queue p = [] ∧ Caption.active p = [].
Proof.
  intros Hw Hrest.
  destruct (decide ((Caption.queue p ++ Caption.active p)%list = [])) as [E|E].
  - apply app_eq_nil in E. exact E.
  - destruct (pool_progress backend_name captioner workers p Hw E) as [p' Hp'].
    exfalso. exact (Hrest p' Hp').
Qed.

End Steps.
End RestFacts.

Import RestFacts.





Import TextFacts Utf8Facts JsonFacts JournalFacts ReplayFacts CounterFacts.
Import DispatchFacts BatchFacts PoolFacts RunFacts PendingFacts CheckpointFacts SignalFacts.
Import ChunkFacts ShapeFacts.

(** ** The commands [estimate] and [stats] *)

Module CommandFacts.

Lemma count_done_from (j : CaptionJournal) (photos : list item) (n : Z) :
  fold_left (λ total (it : item),
               if Journal.is_done j it.1 then total + 1 else total)
            photos n =
  n + Z.of_nat (length photos)
    - Z.of_nat (length (filter (λ it : item, Journal.is_done j it.1 = false)
                               photos)).
Proof.
  revert n. induction photos as [|it photos IH]; intros n; [simpl; lia|].
  cbn [fold_left]. rewrite IH, filter_cons.
  destruct (Journal.is_done j it.1) eqn:E.
  - rewrite decide_False by discriminate. simpl length. lia.
  - rewrite decide_True by reflexivity. simpl length. lia.
Qed.

Lemma insert_sorted_Permutation (x : string * nat) (l : list (string * nat)) :
  Caption.insert_sorted x l ≡ₚ x :: l.
Proof.
  induction l as [|y l IH]; [reflexivity|]. simpl.
  destruct (Caption.tuple_le x y); [reflexivity|].
  rewrite IH. apply Permutation_swap.
Qed.

Lemma sorted_Permutation (l : list (string * nat)) : Caption.sorted l ≡ₚ l.
Proof.
  induction l as [|x l IH]; [reflexivity|].
  unfold Caption.sorted in *. simpl.
  rewrite insert_sorted_Permutation, IH. reflexivity.
Qed.

Lemma tuple_le_total (a b : string * nat) :
  Caption.tuple_le a b = false -> Caption.tuple_le b a = true.
Proof.
  unfold Caption.tuple_le. rewrite (String.compare_antisym b.1 a.1).
  destruct (String.compare a.1 b.1); simpl; try discriminate.
  - intros H. apply Nat.leb_gt in H. apply Nat.leb_le. lia.
  - reflexivity.
Qed.

#[local] Abbreviation le_rel :=
  (λ a b : string * nat, Caption.tuple_le a b = true).

Lemma insert_sorted_Sorted (x : string * nat) (l : list (string * nat)) :
  Sorted le_rel l -> Sorted le_rel (Caption.insert_sorted x l).
Proof.
  induction l as [|y l IH]; intros Hs.
  - simpl. repeat constructor.
  - simpl. destruct (Caption.tuple_le x y) eqn:E.
    + constructor; [exact Hs|]. constructor. exact E.
    + apply Sorted_inv in Hs as [Hs Hhd].
      constructor; [apply IH, Hs|].
      destruct l as [|z l]; simpl.
      * constructor. apply tuple_le_total, E.
      * destruct (Caption.tuple_le x z).
        -- constructor. apply tuple_le_total, E.
        -- constructor. inversion Hhd; assumption.
Qed.

Lemma sorted_Sorted (l : list (string * nat)) :
  Sorted le_rel (Caption.sorted l).
Proof.
  induction l as [|x l IH]; [constructor|].
  unfold Caption.sorted in *. simpl. apply insert_sorted_Sorted, IH.
Qed.

(** With keys that differ the order of the tuples is the strict order of
    the keys. *)
Lemma tuple_le_strict (a b : string * nat) :
  Caption.tuple_le a b = true -> a.1 ≠ b.1 -> String.ltb a.1 b.1 = true.
Proof.
  unfold Caption.tuple_le, String.ltb.
  destruct (String.compare a.1 b.1) eqn:E; try discriminate.
  - intros _ H. exfalso. apply H, String.compare_eq_iff, E.
  - reflexivity.
Qed.

Lemma Sorted_strict (l : list (string * nat)) :
  Sorted le_rel l -> NoDup (map fst l) ->
  Sorted (λ a b : string * nat, String.ltb a.1 b.1 = true) l.
Proof.
  induction l as [|x l IH]; intros Hs Hnd; [constructor|].
  apply Sorted_inv in Hs as [Hs Hhd]. cbn [map] in Hnd.
  apply NoDup_cons in Hnd as [Hx Hnd].
  constructor; [apply IH; assumption|].
  destruct l as [|y l]; constructor.
  inversion Hhd as [|? ? Hle]; subst.
  apply tuple_le_strict; [exact Hle|].
  intros E. apply Hx. cbn [map]. rewrite E. apply list_elem_of_here.
Qed.

End CommandFacts.

Import CommandFacts.

(** X16.  What [estimate] counts.  When the journal loads, the number
    [estimate] prints as remaining is the number of photos a [run] with no
    limit and no retry set would find pending, and [already_done] is the
    rest of the total; with [--max-workers 0] the command loads the
    journal and then stops with [ZeroDivisionError] before it prints
    anything. *)
Theorem estimate_counts_pending (backend_name model : string)
        (max_workers : Z) (o : options) (e : env) (w w1 : world)
        (m : gmap string entry) (j : CaptionJournal) :
  Journal.load ∅ Journal.init w = (Ok m, j, w1) ->
  retry_status o = None ->
  limit o <= 0 ->
  let total := Z.of_nat (length (all_photos e)) in
  let remaining := Z.of_nat (length (pending_before o e w)) in
  Caption.estimate backend_name model max_workers e w =
  if max_workers =? 0
  then (Crashed (OtherError "ZeroDivisionError"), [], w1)
  else (Returned,
        [Caption.EchoRemaining remaining total (total - remaining);
         Caption.EchoBackend backend_name model;
         Caption.EchoCost; Caption.EchoTime],
        w1).
Proof.
  intros Hload Hretry Hl total remaining.
  unfold Caption.estimate. rewrite Hload.
  assert (Hrem : remaining =
            Z.of_nat (length (filter (λ it : item, Journal.is_done j it.1 = false)
                                     (all_photos e)))).
  { subst remaining. unfold pending_before. rewrite Hretry.
    cbn [Caption.retry_set]. rewrite Hload. unfold pending_of.
    rewrite (proj2 (Z.ltb_ge _ _) Hl). reflexivity. }
  unfold Caption.count_done. rewrite count_done_from, <- Hrem.
  fold total.
  replace (0 + total - remaining) with (total - remaining) by lia.
  replace (total - (total - remaining)) with remaining by lia.
  reflexivity.
Qed.

Lemma estimate_counts_pending_witness :
  let rs := [ {| rel_path := "p0.jpg"; caption := Some "a cat";
                 status := "success" |};
              {| rel_path := "p1.jpg"; caption := None;
                 status := "error_api" |} ] in
  let w := {| disk := Some (journal_text rs); logged := [] |} in
  Caption.estimate "openai" "gpt-4o-mini" 8 ten_env w =
  (Returned,
   [Caption.EchoRemaining 8 10 2; Caption.EchoBackend "openai" "gpt-4o-mini";
    Caption.EchoCost; Caption.EchoTime],
   w).
Proof.
  intros rs w.
  exact (estimate_counts_pending "openai" "gpt-4o-mini" 8 plain_options
           ten_env w w _ _ eq_refl eq_refl ltac:(simpl; lia)).
Defined.

Lemma occurrences_pos (s : string) (l : list string) :
  s ∈ l ↔ (0 < occurrences s l)%nat.
Proof.
  induction l as [|x l IH].
  - unfold occurrences. simpl. split; [intros H; inversion H | lia].
  - rewrite occurrences_cons, elem_of_cons, IH.
    case_bool_decide as E; split.
    + lia.
    + intros _. left. congruence.
    + intros [H|H]; [congruence | lia].
    + intros H. right. lia.
Qed.

Lemma load_status_ok (retry : gset string) (j j' : CaptionJournal)
      (w w' : world) (m : gmap string entry) :
  Journal.load retry j w = (Ok m, j', w') ->
  map_Forall (λ _ e, entry_status e ∈ STATUSES) m.
Proof.
  intros H. unfold Journal.load in H.
  destruct (disk w) as [bytes|].
  - destruct (Utf8.decode bytes) as [text|]; [|discriminate H].
    rewrite replay_total in H. injection H as <- _ _.
    assert (Hall : map_Forall (λ _ e, status_ok (entry_status e) = true)
                     (store_all (omap accepted (Text.file_lines text)) ∅)).
    { apply store_all_status; [|apply map_Forall_empty].
      apply Forall_forall. intros r Hr.
      apply list_elem_of_omap in Hr as (line & _ & Hline).
      exact (accepted_status _ _ Hline). }
    intros k e Hk. specialize (Hall k e Hk). simpl in Hall.
    unfold status_ok in Hall. apply bool_decide_eq_true in Hall. exact Hall.
  - injection H as <- _ _. apply map_Forall_empty.
Qed.

(** X17.  What [stats] prints.  When the journal loads without a record
    the command says so and exits with code 0.  Otherwise it prints the
    number of records and then one row per status that occurs, in
    ascending order of the status names, each with the number of records
    of that status; the statuses are among the four of the closed set. *)
Theorem stats_rows (w w1 : world) (m : gmap string entry)
        (j : CaptionJournal) :
  Journal.load ∅ Journal.init w = (Ok m, j, w1) ->
  (m = ∅ -> Caption.stats w = (Exit 0, [Caption.EchoNoRecords], w1)) ∧
  (m ≠ ∅ ->
   ∃ rows : list (string * nat),
     Caption.stats w =
       (Returned,
        Caption.EchoTotalRecords (Z.of_nat (size m))
          :: map (λ sc, Caption.EchoStatusCount sc.1 (Z.of_nat sc.2)) rows,
        w1) ∧
     Sorted (λ a b : string * nat, String.ltb a.1 b.1 = true) rows ∧
     (∀ s n, (s, n) ∈ rows ↔
             (0 < n)%nat ∧
             n = size (filter (λ kv : string * entry, entry_status kv.2 = s) m)) ∧
     (∀ s n, (s, n) ∈ rows -> s ∈ STATUSES)).
Proof.
  intros Hload. unfold Caption.stats. rewrite Hload. split.
  { intros ->. rewrite bool_decide_eq_true_2 by reflexivity. reflexivity. }
  intros Hne. rewrite bool_decide_eq_false_2 by exact Hne.
  set (l := map (λ kv : string * entry, entry_status kv.2) (map_to_list m)).
  exists (Caption.sorted (map_to_list (Counter l))).
  assert (Hmem : ∀ s n, (s, n) ∈ Caption.sorted (map_to_list (Counter l)) ↔
                        s ∈ l ∧ n = occurrences s l).
  { intros s n. rewrite sorted_Permutation, elem_of_map_to_list, Counter_lookup.
    case_bool_decide as E; split.
    - intros [= <-]. split; [exact E | reflexivity].
    - intros [_ ->]. reflexivity.
    - discriminate.
    - intros [H _]. contradiction. }
  split; [|split; [|split]].
  - rewrite sum_values_Counter. subst l.
    rewrite length_map, length_map_to_list. reflexivity.
  - apply Sorted_strict; [apply sorted_Sorted|].
    rewrite sorted_Permutation. apply NoDup_fst_map_to_list.
  - intros s n. rewrite Hmem, occurrences_pos. subst l.
    rewrite occurrences_map, size_filter_list.
    split; intros [H1 H2]; subst n; split; auto.
  - intros s n Hin. apply Hmem in Hin as [Hin _]. subst l.
    apply list_elem_of_fmap in Hin as ([k en] & -> & Hkv).
    apply elem_of_map_to_list in Hkv.
    exact (load_status_ok _ _ _ _ _ _ Hload k en Hkv).
Qed.

Lemma stats_rows_witness :
  let rs := [ {| rel_path := "a.jpg"; caption := Some "a cat";
                 status := "success" |};
              {| rel_path := "b.jpg"; caption := None;
                 status := "error_api" |};
              {| rel_path := "c.jpg"; caption := Some "a dog";
                 status := "success" |} ] in
  let w := {| disk := Some (journal_text rs); logged := [] |} in
  Caption.stats w =
    (Returned,
     [Caption.EchoTotalRecords 3; Caption.EchoStatusCount "error_api" 1;
      Caption.EchoStatusCount "success" 2], w) ∧
  (store_all rs ∅ ≠ ∅ ->
   ∃ rows : list (string * nat),
     Caption.stats w =
       (Returned,
        Caption.EchoTotalRecords (Z.of_nat (size (store_all rs ∅)))
          :: map (λ sc, Caption.EchoStatusCount sc.1 (Z.of_nat sc.2)) rows,
        w) ∧
     Sorted (λ a b : string * nat, String.ltb a.1 b.1 = true) rows ∧
     (∀ s n, (s, n) ∈ rows ↔
             (0 < n)%nat ∧
             n = size (filter (λ kv : string * entry, entry_status kv.2 = s)
                              (store_all rs ∅))) ∧
     (∀ s n, (s, n) ∈ rows -> s ∈ STATUSES)).
Proof.
  intros rs w. split; [vm_compute; reflexivity|].
  refine (proj2 (stats_rows w w (store_all rs ∅) _ _)).
  apply load_holds; [reflexivity | left; reflexivity].
Defined.
